(** * pkg/eventbus: an in-process publish/subscribe hub

    Shallow embedding of [src/pkg/eventbus/eventbus.go] and the properties
    its specification states about it.

    - A Go value of type [chan any] is a reference: either [nil] or a
      pointer to a channel object made by [make].  Channel objects live in
      a process-wide heap (a list, a reference being an index into it), so
      the handle the consumer holds and the entry in the bus registry alias
      the same queue.
    - A channel object is its capacity, the buffered events in FIFO order
      and the closed flag.  Sends are the non-blocking ones of
      [select { case ch <- event: default: }]; receives are the consumer's,
      taken between two bus operations, so no consumer is parked in a
      receive at the moment of a send: a send succeeds when the buffer has
      room and is dropped otherwise, always so with capacity 0.
    - Every method of the bus that mutates it holds [eb.mu] from entry to
      exit (the unlock is deferred, so it also runs when the method
      panics): a method is one atomic step on the world, and [mu] itself
      has no field in the model.
    - Go's run-time panics are an outcome of their own, carrying the world
      at the moment of the panic. *)

From Stdlib Require Import ZArith Lia.
From stdpp Require Import base decidable option list strings.

Open Scope Z_scope.

(** ** Channel references *)

Inductive chan : Type :=
| NilChan
| Chan (l : nat).

#[global] Instance chan_eq_dec : EqDecision chan.
Proof. solve_decision. Defined.

(** The run-time panics the channel primitives can raise. *)
Inductive panic : Type :=
| MakechanSizeOutOfRange   (* make(chan T, n) with n < 0 or n too large *)
| SendOnClosedChannel      (* ch <- v on a closed channel, also inside select *)
| CloseOfClosedChannel     (* close(ch) on a closed channel *)
| CloseOfNilChannel.       (* close(nil) *)

(** What a non-blocking send did with the event. *)
Inductive delivery : Type :=
| Enqueued
| Dropped.

#[global] Instance delivery_eq_dec : EqDecision delivery.
Proof. solve_decision. Defined.

(** What the Go run-time of the platform fixes and the repository does
    not: [make(chan any, n)] panics with "makechan: size out of range" not
    only for [n < 0] but also when the buffer of [n] interface values would
    not fit the heap ([mem > maxAlloc - hchanSize] in the run-time's
    [makechan]).  [maxChanCap] is the largest [n] it grants. *)
Class Platform : Type := { maxChanCap : Z }.

Section EventBus.

(** The payload type: the bus carries Go's [any] and never inspects it. *)
Context {event : Type} {platform : Platform}.

(** ** Data model *)

(** A channel object (the run-time's [hchan]). *)
Record hchan : Type := Hchan {
  dataqsiz : Z;            (* capacity given to make *)
  buf : list event;        (* buffered events, oldest first *)
  closed : bool
}.

(** A slice of channel references: [None] is the nil slice, [Some l] a
    non-nil slice with elements [l]. *)
Definition slice : Type := option (list chan).

(** [type eventBus struct { subscribers []chan any; mu sync.Mutex }] *)
Record eventBus : Type := EventBus {
  subscribers : slice
}.

(** The world: the channel heap of the process and the bus under study. *)
Record world : Type := World {
  heap : list hchan;
  eb : eventBus
}.

(** ** Slices *)

(** The elements a [range] loop visits, in order; [len s] is their number. *)
Definition elems (s : slice) : list chan := default [] s.

(** [append(s, xs...)]: the nil slice stays nil when nothing is appended. *)
Definition append (s : slice) (xs : list chan) : slice :=
  match s with
  | None => match xs with [] => None | _ :: _ => Some xs end
  | Some l => Some (l ++ xs)
  end.

(** [s[:i]] and [s[i:]], for [i <= len s] (Go panics beyond that; the one
    use below stays in range). *)
Definition slice_to (s : slice) (i : nat) : slice := take i <$> s.
Definition slice_from (s : slice) (i : nat) : slice := drop i <$> s.

(** ** Outcomes and the state monad of the bus *)

Inductive outcome (A : Type) : Type :=
| Returned (a : A) (w : world)     (* normal return *)
| Panicked (p : panic) (w : world) (* run-time panic, world as it was then *)
| Undefined.                       (* a reference to no channel object:
                                      no Go program has one *)
Arguments Returned {A} a w.
Arguments Panicked {A} p w.
Arguments Undefined {A}.

Definition M (A : Type) : Type := world -> outcome A.

Definition ret {A : Type} (a : A) : M A := fun w => Returned a w.

Definition bind {A B : Type} (m : M A) (k : A -> M B) : M B :=
  fun w =>
    match m w with
    | Returned a w' => k a w'
    | Panicked p w' => Panicked p w'
    | Undefined => Undefined
    end.

Notation "'let!' x ':=' m 'in' k" := (bind m (fun x => k))
  (at level 10, x name, m at level 100, k at level 200, only parsing).

Definition get_subscribers : M slice :=
  fun w => Returned (subscribers (eb w)) w.

Definition set_subscribers (s : slice) : M unit :=
  fun w => Returned tt (World (heap w) (EventBus s)).

Definition set_chan (l : nat) (q : hchan) (w : world) : world :=
  World (<[l := q]> (heap w)) (eb w).

(** ** Channel primitives *)

(** [make(chan any, capacity)]: a fresh object at the end of the heap.  A
    capacity that is negative or beyond what the platform grants is a
    run-time panic. *)
Definition makechan (capacity : Z) : M chan :=
  fun w =>
    if (capacity <? 0) || (maxChanCap <? capacity)
    then Panicked MakechanSizeOutOfRange w
    else Returned (Chan (length (heap w)))
                  (World (heap w ++ [Hchan capacity [] false]) (eb w)).

(** [select { case ch <- e: default: }]. *)
Definition chansend_nb (ch : chan) (e : event) : M delivery :=
  fun w =>
    match ch with
    | NilChan => Returned Dropped w
    | Chan l =>
        match heap w !! l with
        | None => Undefined
        | Some q =>
            if closed q then Panicked SendOnClosedChannel w
            else if Z.of_nat (length (buf q)) <? dataqsiz q
            then Returned Enqueued
                   (set_chan l (Hchan (dataqsiz q) (buf q ++ [e]) false) w)
            else Returned Dropped w
        end
    end.

(** [close(ch)]. *)
Definition closechan (ch : chan) : M unit :=
  fun w =>
    match ch with
    | NilChan => Panicked CloseOfNilChannel w
    | Chan l =>
        match heap w !! l with
        | None => Undefined
        | Some q =>
            if closed q then Panicked CloseOfClosedChannel w
            else Returned tt (set_chan l (Hchan (dataqsiz q) (buf q) true) w)
        end
    end.

(** What the consumer sees from [v, ok := <-ch] tried at this instant. *)
Inductive received : Type :=
| RecvValue (e : event)   (* ok = true *)
| RecvClosed              (* ok = false: end of stream *)
| RecvWouldBlock.         (* nothing buffered and still open *)

Definition chanrecv (ch : chan) : M received :=
  fun w =>
    match ch with
    | NilChan => Returned RecvWouldBlock w
    | Chan l =>
        match heap w !! l with
        | None => Undefined
        | Some q =>
            match buf q with
            | e :: b =>
                Returned (RecvValue e)
                         (set_chan l (Hchan (dataqsiz q) b (closed q)) w)
            | [] =>
                if closed q then Returned RecvClosed w
                else Returned RecvWouldBlock w
            end
        end
    end.

(** ** The bus *)

(** [func New() EventBus]: a non-nil empty registry; [h] is whatever the
    process has allocated so far. *)
Definition New (h : list hchan) : world := World h (EventBus (Some [])).

Definition Subscribe (capacity : Z) : M chan :=
  let! ch := makechan capacity in
  let! s := get_subscribers in
  let! _ := set_subscribers (append s [ch]) in
  ret ch.

(** The loop of Publish over the elements still to visit; the result lists
    each channel visited and what became of the event there, in visiting
    order. *)
Fixpoint publish_range (event0 : event) (rest : list chan)
  : M (list (chan * delivery)) :=
  match rest with
  | [] => ret []
  | ch :: rest' =>
      let! d := chansend_nb ch event0 in
      let! ds := publish_range event0 rest' in
      ret ((ch, d) :: ds)
  end.

Definition Publish (event0 : event) : M unit :=
  let! s := get_subscribers in
  let! _ := publish_range event0 (elems s) in
  ret tt.

(** The loop of Unsubscribe: [i] is the index of the head of [rest] in the
    slice being ranged over. *)
Fixpoint unsubscribe_range (ch : chan) (i : nat) (rest : list chan) : M unit :=
  match rest with
  | [] => ret tt
  | sub :: rest' =>
      if decide (sub = ch) then
        let! s := get_subscribers in
        let! _ := set_subscribers (append (slice_to s i) (elems (slice_from s (S i)))) in
        closechan ch
      else unsubscribe_range ch (S i) rest'
  end.

Definition Unsubscribe (ch : chan) : M unit :=
  let! s := get_subscribers in
  unsubscribe_range ch 0 (elems s).

Definition Subscribers : M slice := get_subscribers.

Fixpoint close_range (rest : list chan) : M unit :=
  match rest with
  | [] => ret tt
  | ch :: rest' => let! _ := closechan ch in close_range rest'
  end.

Definition Close : M unit :=
  let! s := get_subscribers in
  let! _ := close_range (elems s) in
  set_subscribers None.

(** ** Sequences of bus operations *)

(** The mutating part of the public interface; [Subscribers] only reads. *)
Inductive op : Type :=
| OpSubscribe (capacity : Z)
| OpPublish (event0 : event)
| OpUnsubscribe (ch : chan)
| OpClose.

Definition step (o : op) : M unit :=
  match o with
  | OpSubscribe capacity => let! _ := Subscribe capacity in ret tt
  | OpPublish event0 => Publish event0
  | OpUnsubscribe ch => Unsubscribe ch
  | OpClose => Close
  end.

Fixpoint run_ops (ops : list op) : M unit :=
  match ops with
  | [] => ret tt
  | o :: ops' => let! _ := step o in run_ops ops'
  end.

(** The capacities [make] grants a Subscribe: not negative and not beyond
    the platform's limit. *)
Definition valid_capacity (o : op) : Prop :=
  match o with
  | OpSubscribe capacity => 0 <= capacity <= maxChanCap
  | _ => True
  end.

(** [n] receives in a row by the consumer holding [ch]. *)
Fixpoint recv_n (n : nat) (ch : chan) : M (list received) :=
  match n with
  | O => ret []
  | S n' =>
      let! r := chanrecv ch in
      let! rs := recv_n n' ch in
      ret (r :: rs)
  end.

(** ** Observations and the registry invariant *)

Definition registry (w : world) : list chan := elems (subscribers (eb w)).

Definition chan_at (w : world) (ch : chan) : option hchan :=
  match ch with
  | NilChan => None
  | Chan l => heap w !! l
  end.

(** [ch] refers to a channel object that is not closed. *)
Definition is_open (w : world) (ch : chan) : bool :=
  match chan_at w ch with
  | Some q => negb (closed q)
  | None => false
  end.

(** [ch] refers to a channel object with a free slot: [len(ch) < cap(ch)]. *)
Definition has_room (w : world) (ch : chan) : bool :=
  match chan_at w ch with
  | Some q => Z.of_nat (length (buf q)) <? dataqsiz q
  | None => false
  end.

(** The registry holds distinct references to open channel objects. *)
Definition bus_inv (w : world) : Prop :=
  NoDup (registry w) /\ Forall (fun ch => is_open w ch = true) (registry w).

#[global] Instance bus_inv_dec (w : world) : Decision (bus_inv w).
Proof. unfold bus_inv. apply _. Defined.

(** What one send attempt and one close do to a channel object. *)
Definition offer (e : event) (q : hchan) : hchan :=
  if Z.of_nat (length (buf q)) <? dataqsiz q
  then Hchan (dataqsiz q) (buf q ++ [e]) (closed q)
  else q.

Definition shut (q : hchan) : hchan := Hchan (dataqsiz q) (buf q) true.

End EventBus.

Arguments hchan event : clear implicits.
Arguments world event : clear implicits.
Arguments outcome event A : clear implicits.
Arguments M event A : clear implicits.
Arguments op event : clear implicits.
Arguments received event : clear implicits.
Arguments Returned {event A} a w.
Arguments Panicked {event A} p w.
Arguments Undefined {event A}.

(** ** The goroutines around the bus *)

Section Goroutines.

Context {event : Type} {platform : Platform}.

(** One move of the program around the bus: a call of one of its methods,
    a receive by a consumer on the handle it holds, or a consumer closing
    its handle itself, which the type [chan any] lets it do. *)
Inductive act : Type :=
| ActBus (o : op event)
| ActRecv (ch : chan)
| ActClose (ch : chan).

Definition step_act (a : act) : M event unit :=
  match a with
  | ActBus o => step o
  | ActRecv ch => bind (chanrecv ch) (fun _ => ret tt)
  | ActClose ch => closechan ch
  end.

Fixpoint run_acts (acts : list act) : M event unit :=
  match acts with
  | [] => ret tt
  | a :: acts' => bind (step_act a) (fun _ => run_acts acts')
  end.

(** The moves of a well-behaved consumer: it leaves closing to the bus. *)
Definition no_consumer_close (a : act) : Prop :=
  match a with
  | ActClose _ => False
  | _ => True
  end.

(** [Subscribe] called once for each capacity, in order; the handles come
    back in the same order. *)
Fixpoint subscribe_all (capacities : list Z) : M event (list chan) :=
  match capacities with
  | [] => ret []
  | capacity :: capacities' =>
      bind (Subscribe capacity) (fun ch =>
      bind (subscribe_all capacities') (fun chs =>
      ret (ch :: chs)))
  end.

(** The computation [m] keeps the property [P] of worlds, whether it
    returns or panics. *)
Definition keeps {A : Type} (P : world event -> Prop) (m : M event A) : Prop :=
  forall w, P w ->
    match m w with
    | Returned _ w' | Panicked _ w' => P w'
    | Undefined => True
    end.

(** [len(ch) <= cap(ch)]. *)
Definition within_capacity (q : hchan event) : Prop :=
  Z.of_nat (length (buf q)) <= dataqsiz q.

(** A channel object after the events [es] were offered to it one by one:
    it takes as many as it has free slots, in order. *)
Definition fill (es : list event) (q : hchan event) : hchan event :=
  Hchan (dataqsiz q)
        (buf q ++ take (Z.to_nat (dataqsiz q) - length (buf q)) es)
        (closed q).

(** No queue in the heap holds more than its capacity. *)
Definition bounded (w : world event) : Prop :=
  Forall within_capacity (heap w).

(** How the bus may change a channel object: the capacity stays, what is
    buffered stays at the front, and a closed channel stays as it is. *)
Definition evolves (q q' : hchan event) : Prop :=
  dataqsiz q' = dataqsiz q
  /\ buf q `prefix_of` buf q'
  /\ (closed q = true -> q' = q).

End Goroutines.

Arguments act event : clear implicits.

(** ** A concrete platform and concrete worlds, with strings as events *)

(** A 64-bit platform: heap addresses of 48 bits, 16 bytes for a value of
    type [any], 96 bytes for the channel header, hence at most
    [(2^48 - 96) / 16] buffered values. *)
#[global] Instance amd64 : Platform :=
  {| maxChanCap := (2 ^ 48 - 96) / 16 |}.

(** A capacity the specification allows and this platform refuses. *)
Definition huge_capacity : Z := 2 ^ 45.

(** Two subscribers with capacities 2 and 1, the first with one event
    pending; the third channel was unsubscribed earlier. *)
Definition demo_world : world string :=
  World [Hchan 2 ["a"%string] false; Hchan 1 [] false; Hchan 0 [] true]
        (EventBus (Some [Chan 0; Chan 1])).

(** [demo_world] after Close. *)
Definition demo_closed : world string :=
  World [Hchan 2 ["a"%string] true; Hchan 1 [] true; Hchan 0 [] true]
        (EventBus None).

Definition abc : list string := ["a"; "b"; "c"]%string.

(** [demo_world] after the consumer of its second subscription closed the
    handle itself. *)
Definition misused_world : world string :=
  World [Hchan 2 ["a"%string] false; Hchan 1 [] true; Hchan 0 [] true]
        (EventBus (Some [Chan 0; Chan 1])).

(** One subscriber whose queue of capacity 2 is full. *)
Definition full_world : world string :=
  World [Hchan 2 ["a"; "b"]%string false] (EventBus (Some [Chan 0])).

(** A history of a fresh bus and its consumers that ends in [demo_world]. *)
Definition demo_acts : list (act string) :=
  [ActBus (OpSubscribe 2); ActBus (OpPublish "z"%string);
   ActBus (OpPublish "a"%string); ActRecv (Chan 0);
   ActBus (OpSubscribe 1); ActBus (OpSubscribe 0);
   ActBus (OpUnsubscribe (Chan 2))].

(** A history of a fresh bus that ends in [demo_world]. *)
Definition demo_ops : list (op string) :=
  [OpSubscribe 2; OpPublish "a"%string; OpSubscribe 1; OpSubscribe 0;
   OpUnsubscribe (Chan 2)].

Section Properties.

Context {event : Type} {platform : Platform}.
Implicit Types (w : world event) (q : hchan event) (ch : chan) (l : nat).
Implicit Types (e : event) (es : list event) (rest : list chan).

(** ** Slices *)

Lemma elems_append (s : slice) (xs : list chan) :
  elems (append s xs) = elems s ++ xs.
Proof. destruct s as [l0|]; [done|]. by destruct xs. Qed.

(** ** Channel primitives on an open channel object *)

Lemma is_open_lookup w ch :
  is_open w ch = true ->
  exists l q, ch = Chan l /\ heap w !! l = Some q /\ closed q = false.
Proof.
  unfold is_open, chan_at. destruct ch as [|l]; [done|].
  destruct (heap w !! l) as [q|] eqn:Hq; [|done].
  intros Hc. exists l, q. by destruct (closed q).
Qed.

Lemma set_chan_id w l q : heap w !! l = Some q -> set_chan l q w = w.
Proof.
  intros Hq. destruct w as [h b]. unfold set_chan. simpl in *.
  by rewrite list_insert_id.
Qed.

Lemma chansend_nb_open w l q e :
  heap w !! l = Some q -> closed q = false ->
  chansend_nb (Chan l) e w =
    Returned (if has_room w (Chan l) then Enqueued else Dropped)
             (set_chan l (offer e q) w).
Proof.
  intros Hq Hc. unfold chansend_nb, has_room, offer, chan_at.
  rewrite Hq, Hc. destruct (Z.of_nat (length (buf q)) <? dataqsiz q).
  - done.
  - by rewrite set_chan_id.
Qed.

Lemma closechan_open w l q :
  heap w !! l = Some q -> closed q = false ->
  closechan (Chan l) w = Returned tt (set_chan l (shut q) w).
Proof. intros Hq Hc. unfold closechan. by rewrite Hq, Hc. Qed.

Lemma closechan_closed w l q :
  heap w !! l = Some q -> closed q = true ->
  closechan (Chan l) w = Panicked CloseOfClosedChannel w.
Proof. intros Hq Hc. unfold closechan. by rewrite Hq, Hc. Qed.

Lemma heap_set_chan w l l' q :
  heap w !! l = Some q ->
  forall q', heap (set_chan l q' w) !! l' =
    if decide (l' = l) then Some q' else heap w !! l'.
Proof.
  intros Hq q'. unfold set_chan. simpl. case_decide as Hl.
  - subst. apply list_lookup_insert_eq. by eapply lookup_lt_Some.
  - by apply list_lookup_insert_ne.
Qed.

Lemma is_open_set_chan w l q q' ch :
  heap w !! l = Some q -> ch <> Chan l ->
  is_open (set_chan l q' w) ch = is_open w ch.
Proof.
  intros Hq Hne. unfold is_open, chan_at. destruct ch as [|l']; [done|].
  rewrite (heap_set_chan w l l' q Hq). case_decide; [congruence|done].
Qed.

Lemma has_room_set_chan w l q q' ch :
  heap w !! l = Some q -> ch <> Chan l ->
  has_room (set_chan l q' w) ch = has_room w ch.
Proof.
  intros Hq Hne. unfold has_room, chan_at. destruct ch as [|l']; [done|].
  rewrite (heap_set_chan w l l' q Hq). case_decide; [congruence|done].
Qed.

Lemma Forall_open_set_chan w l q q' rest :
  heap w !! l = Some q -> Chan l ∉ rest ->
  Forall (fun ch => is_open w ch = true) rest ->
  Forall (fun ch => is_open (set_chan l q' w) ch = true) rest.
Proof.
  intros Hq Hnin Hall. apply Forall_forall. intros ch Hch.
  rewrite (is_open_set_chan w l q q' ch Hq).
  - by eapply Forall_forall in Hall.
  - intros ->. done.
Qed.

(** ** The loops *)

Local Ltac fold_fmap_tail :=
  match goal with
  | |- _ :: _ = _ :: list_fmap ?A ?B ?f ?l =>
      change (list_fmap A B f l) with (f <$> l); f_equal
  end.

(** Publish's loop over distinct open channels never panics: it offers the
    event to each of them once and touches nothing else. *)
Lemma publish_range_spec e rest w :
  NoDup rest ->
  Forall (fun ch => is_open w ch = true) rest ->
  exists w',
    publish_range e rest w =
      Returned ((fun ch => (ch, if has_room w ch then Enqueued else Dropped))
                  <$> rest) w'
    /\ eb w' = eb w
    /\ forall l, heap w' !! l =
          if decide (Chan l ∈ rest) then offer e <$> heap w !! l
          else heap w !! l.
Proof.
  revert w. induction rest as [|ch rest IH]; intros w Hnd Hall.
  - exists w. split; [done|]. split; [done|]. intros l.
    case_decide as Hin; [by apply elem_of_nil in Hin|done].
  - apply NoDup_cons in Hnd as [Hnin Hnd].
    apply Forall_cons in Hall as [Hop Hall].
    destruct (is_open_lookup _ _ Hop) as (l0 & q & -> & Hq & Hc).
    pose proof (Forall_open_set_chan w l0 q (offer e q) rest Hq Hnin Hall)
      as Hall1.
    destruct (IH _ Hnd Hall1) as (w' & Hrun & Heb & Hheap).
    exists w'. split; [|split].
    + simpl. unfold bind. rewrite (chansend_nb_open w l0 q e Hq Hc), Hrun.
      unfold ret. f_equal. fold_fmap_tail.
      apply Forall_fmap_ext, Forall_forall.
      intros ch Hch. rewrite (has_room_set_chan w l0 q _ ch Hq); [done|].
      by intros ->.
    + by rewrite Heb.
    + intros l. rewrite Hheap, (heap_set_chan w l0 l q Hq).
      destruct (decide (l = l0)) as [->|Hne].
      * rewrite decide_False by done. rewrite decide_True by left.
        by rewrite Hq.
      * destruct (decide (Chan l ∈ rest)) as [Hin|Hin].
        -- rewrite decide_True by (by right). done.
        -- rewrite decide_False; [done|].
           intros [?|?]%elem_of_cons; [congruence|done].
Qed.

(** Close's loop over distinct open channels never panics: it closes each
    of them and touches nothing else. *)
Lemma close_range_spec rest w :
  NoDup rest ->
  Forall (fun ch => is_open w ch = true) rest ->
  exists w',
    close_range rest w = Returned tt w'
    /\ eb w' = eb w
    /\ forall l, heap w' !! l =
          if decide (Chan l ∈ rest) then shut <$> heap w !! l
          else heap w !! l.
Proof.
  revert w. induction rest as [|ch rest IH]; intros w Hnd Hall.
  - exists w. split; [done|]. split; [done|]. intros l.
    case_decide as Hin; [by apply elem_of_nil in Hin|done].
  - apply NoDup_cons in Hnd as [Hnin Hnd].
    apply Forall_cons in Hall as [Hop Hall].
    destruct (is_open_lookup _ _ Hop) as (l0 & q & -> & Hq & Hc).
    pose proof (Forall_open_set_chan w l0 q (shut q) rest Hq Hnin Hall)
      as Hall1.
    destruct (IH _ Hnd Hall1) as (w' & Hrun & Heb & Hheap).
    exists w'. split; [|split].
    + simpl. unfold bind. by rewrite (closechan_open w l0 q Hq Hc), Hrun.
    + by rewrite Heb.
    + intros l. rewrite Hheap, (heap_set_chan w l0 l q Hq).
      destruct (decide (l = l0)) as [->|Hne].
      * rewrite decide_False by done. rewrite decide_True by left.
        by rewrite Hq.
      * destruct (decide (Chan l ∈ rest)) as [Hin|Hin].
        -- rewrite decide_True by (by right). done.
        -- rewrite decide_False; [done|].
           intros [?|?]%elem_of_cons; [congruence|done].
Qed.

(** Unsubscribe's loop finds nothing to do when the handle is not among the
    elements it visits. *)
Lemma unsubscribe_range_notin ch i rest w :
  ch ∉ rest -> unsubscribe_range ch i rest w = Returned tt w.
Proof.
  revert i. induction rest as [|sub rest IH]; intros i Hnin; [done|].
  apply not_elem_of_cons in Hnin as [Hne Hnin]. simpl.
  rewrite decide_False by done. by apply IH.
Qed.

(** At the first match it cuts that one element out of the slice and
    closes the handle. *)
Lemma unsubscribe_range_found ch pre r1 r2 w :
  subscribers (eb w) = Some (pre ++ r1 ++ ch :: r2) ->
  ch ∉ r1 ->
  unsubscribe_range ch (length pre) (r1 ++ ch :: r2) w =
    closechan ch (World (heap w) (EventBus (Some (pre ++ r1 ++ r2)))).
Proof.
  revert pre. induction r1 as [|sub r1 IH]; intros pre Hs Hnin.
  - simpl in *. rewrite decide_True by done.
    unfold bind, get_subscribers, set_subscribers, slice_to, slice_from.
    rewrite Hs. simpl. rewrite take_app_length.
    replace (S (length pre)) with (length (pre ++ [ch]))
      by (rewrite length_app; simpl; lia).
    rewrite (cons_middle ch pre r2), app_assoc, drop_app_length. done.
  - apply not_elem_of_cons in Hnin as [Hne Hnin]. simpl.
    rewrite decide_False by done.
    replace (S (length pre)) with (length (pre ++ [sub]))
      by (rewrite length_app; simpl; lia).
    rewrite (IH (pre ++ [sub])); [|by rewrite <- app_assoc|done].
    by rewrite <- app_assoc.
Qed.

(** ** The methods *)

Lemma capacity_cases (capacity : Z) :
  0 <= capacity <= maxChanCap \/ (capacity < 0 \/ maxChanCap < capacity).
Proof. lia. Qed.

Lemma Subscribe_ok w capacity :
  0 <= capacity <= maxChanCap ->
  Subscribe capacity w =
    Returned (Chan (length (heap w)))
      (World (heap w ++ [Hchan capacity [] false])
             (EventBus (append (subscribers (eb w))
                               [Chan (length (heap w))]))).
Proof.
  intros Hc. unfold Subscribe, bind, makechan.
  destruct (Z.ltb_spec capacity 0); [lia|].
  destruct (Z.ltb_spec maxChanCap capacity); [lia|done].
Qed.

Lemma Subscribe_rejected w capacity :
  capacity < 0 \/ maxChanCap < capacity ->
  Subscribe capacity w = Panicked MakechanSizeOutOfRange w.
Proof.
  intros Hc. unfold Subscribe, bind, makechan.
  destruct (Z.ltb_spec capacity 0); [done|].
  destruct (Z.ltb_spec maxChanCap capacity); [done|lia].
Qed.

Lemma Unsubscribe_notin w ch :
  ch ∉ registry w -> Unsubscribe ch w = Returned tt w.
Proof.
  intros Hnin. unfold Unsubscribe, bind, get_subscribers.
  by apply unsubscribe_range_notin.
Qed.

Lemma Unsubscribe_found w ch r1 r2 :
  registry w = r1 ++ ch :: r2 -> ch ∉ r1 ->
  Unsubscribe ch w =
    closechan ch (World (heap w) (EventBus (Some (r1 ++ r2)))).
Proof.
  intros Hreg Hnin. unfold Unsubscribe, bind, get_subscribers.
  unfold registry in Hreg. rewrite Hreg.
  apply (unsubscribe_range_found ch [] r1 r2 w); [|done].
  destruct (subscribers (eb w)) as [s|]; simpl in *; [by subst|].
  by destruct r1.
Qed.

Lemma Unsubscribe_spec w l :
  bus_inv w -> Chan l ∈ registry w ->
  exists pre post q,
    registry w = pre ++ Chan l :: post
    /\ (Chan l ∉ pre ++ post)
    /\ heap w !! l = Some q /\ closed q = false
    /\ Unsubscribe (Chan l) w =
         Returned tt (World (<[l := shut q]> (heap w))
                            (EventBus (Some (pre ++ post)))).
Proof.
  intros [Hnd Hall] Hin.
  destruct (list_elem_of_split_l _ _ Hin) as (pre & post & Hreg & Hpre).
  assert (Hop : is_open w (Chan l) = true).
  { by eapply Forall_forall in Hall. }
  destruct (is_open_lookup _ _ Hop) as (l' & q & [= <-] & Hq & Hc).
  exists pre, post, q. split; [done|].
  rewrite Hreg in Hnd. apply NoDup_app in Hnd as (_ & _ & Hnd).
  apply NoDup_cons in Hnd as [Hpost _].
  split; [by intros [?|?]%elem_of_app|].
  split; [done|]. split; [done|].
  rewrite (Unsubscribe_found w (Chan l) pre post Hreg Hpre).
  by rewrite (closechan_open (World (heap w) _) l q Hq Hc).
Qed.

Lemma Publish_spec w e :
  bus_inv w ->
  exists w',
    Publish e w = Returned tt w'
    /\ publish_range e (registry w) w =
         Returned ((fun ch => (ch, if has_room w ch then Enqueued else Dropped))
                     <$> registry w) w'
    /\ eb w' = eb w
    /\ forall l, heap w' !! l =
          if decide (Chan l ∈ registry w) then offer e <$> heap w !! l
          else heap w !! l.
Proof.
  intros [Hnd Hall].
  destruct (publish_range_spec e _ w Hnd Hall) as (w' & Hrun & Heb & Hheap).
  exists w'. split; [|done].
  unfold Publish, bind, get_subscribers.
  fold (registry w). by rewrite Hrun.
Qed.

Lemma Close_spec w :
  bus_inv w ->
  exists w',
    Close w = Returned tt w'
    /\ subscribers (eb w') = None
    /\ forall l, heap w' !! l =
          if decide (Chan l ∈ registry w) then shut <$> heap w !! l
          else heap w !! l.
Proof.
  intros [Hnd Hall].
  destruct (close_range_spec _ w Hnd Hall) as (w' & Hrun & Heb & Hheap).
  exists (World (heap w') (EventBus None)). split; [|done].
  unfold Close, bind, get_subscribers.
  fold (registry w). by rewrite Hrun.
Qed.

(** ** The registry invariant is kept by every method *)

Lemma bus_inv_New (h : list (hchan event)) : bus_inv (New h).
Proof. split; [apply NoDup_nil_2|apply Forall_nil_2]. Qed.

Lemma is_open_lt w l : is_open w (Chan l) = true -> (l < length (heap w))%nat.
Proof.
  intros (l' & q & [= <-] & Hq & _)%is_open_lookup. by eapply lookup_lt_Some.
Qed.

Lemma bus_inv_Subscribe w capacity ch w' :
  bus_inv w -> Subscribe capacity w = Returned ch w' -> bus_inv w'.
Proof.
  intros [Hnd Hall] Hsub.
  destruct (capacity_cases capacity) as [Hpos|Hneg];
    [|by rewrite Subscribe_rejected in Hsub].
  rewrite Subscribe_ok in Hsub by done. injection Hsub as <- <-.
  unfold bus_inv, registry. simpl. rewrite elems_append.
  fold (registry w). split.
  - apply NoDup_app. split; [done|]. split; [|apply NoDup_singleton].
    intros ch Hch ->%list_elem_of_singleton.
    eapply Forall_forall in Hall; [|done].
    apply is_open_lt in Hall. lia.
  - apply Forall_app. split.
    + apply Forall_forall. intros ch Hch.
      eapply Forall_forall in Hall; [|done].
      destruct (is_open_lookup _ _ Hall) as (l & q & -> & Hq & Hc).
      unfold is_open. simpl. rewrite lookup_app_l by (by eapply lookup_lt_Some).
      by rewrite Hq, Hc.
    + apply Forall_singleton. unfold is_open. simpl.
      by rewrite list_lookup_middle.
Qed.

Lemma bus_inv_Publish w e w' :
  bus_inv w -> Publish e w = Returned tt w' -> bus_inv w'.
Proof.
  intros Hinv Hpub.
  destruct (Publish_spec w e Hinv) as (w1 & Hrun & _ & Heb & Hheap).
  rewrite Hrun in Hpub. injection Hpub as <-.
  destruct Hinv as [Hnd Hall].
  unfold bus_inv, registry. rewrite Heb. fold (registry w). split; [done|].
  apply Forall_forall. intros ch Hch.
  eapply Forall_forall in Hall; [|done].
  destruct (is_open_lookup _ _ Hall) as (l & q & -> & Hq & Hc).
  unfold is_open. simpl. rewrite Hheap, decide_True, Hq by done. simpl.
  unfold offer. by destruct (_ <? _); simpl; rewrite Hc.
Qed.

Lemma bus_inv_Unsubscribe w ch w' :
  bus_inv w -> Unsubscribe ch w = Returned tt w' -> bus_inv w'.
Proof.
  intros Hinv Huns.
  destruct (decide (ch ∈ registry w)) as [Hin|Hnin].
  - assert (Hop : is_open w ch = true).
    { destruct Hinv as [_ Hall]. by eapply Forall_forall in Hall. }
    destruct (is_open_lookup _ _ Hop) as (l & q0 & -> & _).
    destruct (Unsubscribe_spec w l Hinv Hin)
      as (pre & post & q & Hreg & Hout & Hq & Hc & Hrun).
    rewrite Hrun in Huns. injection Huns as <-.
    destruct Hinv as [Hnd Hall]. rewrite Hreg in Hnd, Hall.
    unfold bus_inv, registry. simpl. split.
    + apply NoDup_app in Hnd as (Hpre & Hdisj & Hpost).
      apply NoDup_cons in Hpost as [_ Hpost].
      apply NoDup_app. split; [done|]. split; [|done].
      intros x Hx Hx'. apply (Hdisj x Hx). by right.
    + apply Forall_app in Hall as [Hpre Hpost].
      apply Forall_cons in Hpost as [_ Hpost].
      change (World (<[l:=shut q]> (heap w)) (EventBus (Some (pre ++ post))))
        with (World (heap (set_chan l (shut q) w))
                    (EventBus (Some (pre ++ post)))).
      apply (Forall_open_set_chan w l q (shut q) (pre ++ post) Hq Hout).
      by apply Forall_app.
  - rewrite Unsubscribe_notin in Huns by done. by injection Huns as <-.
Qed.

Lemma bus_inv_Close w w' :
  bus_inv w -> Close w = Returned tt w' -> bus_inv w'.
Proof.
  intros Hinv Hcl.
  destruct (Close_spec w Hinv) as (w1 & Hrun & Hnil & _).
  rewrite Hrun in Hcl. injection Hcl as <-.
  unfold bus_inv, registry. rewrite Hnil. simpl.
  split; [apply NoDup_nil_2|apply Forall_nil_2].
Qed.

(** A step from a state satisfying the invariant returns in a state
    satisfying it, or is a Subscribe with a capacity [make] rejects, which
    panics there before anything is changed. *)
Lemma step_inv w o :
  bus_inv w ->
  (exists w', step o w = Returned tt w' /\ bus_inv w')
  \/ (exists capacity, o = OpSubscribe capacity
        /\ (capacity < 0 \/ maxChanCap < capacity)
        /\ step o w = Panicked MakechanSizeOutOfRange w).
Proof.
  intros Hinv. destruct o as [capacity|e|ch|]; simpl.
  - destruct (capacity_cases capacity) as [Hpos|Hneg].
    2: { right. exists capacity. unfold bind.
         by rewrite Subscribe_rejected. }
    + left. unfold bind.
      pose proof (Subscribe_ok w capacity Hpos) as Hsub. rewrite Hsub.
      eexists. split; [done|]. by eapply bus_inv_Subscribe.
  - left. destruct (Publish_spec w e Hinv) as (w' & Hrun & _).
    exists w'. split; [done|]. by eapply bus_inv_Publish.
  - left. destruct (decide (ch ∈ registry w)) as [Hin|Hnin].
    + assert (Hop : is_open w ch = true).
      { destruct Hinv as [_ Hall]. by eapply Forall_forall in Hall. }
      destruct (is_open_lookup _ _ Hop) as (l & q0 & -> & _).
      destruct (Unsubscribe_spec w l Hinv Hin) as (? & ? & ? & _ & _ & _ & _ & Hrun).
      eexists. split; [done|]. by eapply bus_inv_Unsubscribe.
    + exists w. by rewrite Unsubscribe_notin.
  - left. destruct (Close_spec w Hinv) as (w' & Hrun & _).
    exists w'. split; [done|]. by eapply bus_inv_Close.
Qed.

Lemma run_ops_inv ops w :
  bus_inv w ->
  match run_ops ops w with
  | Returned _ w' => bus_inv w'
  | Panicked p w' => p = MakechanSizeOutOfRange /\ bus_inv w'
  | Undefined => False
  end.
Proof.
  revert w. induction ops as [|o ops IH]; intros w Hinv; [done|].
  simpl. unfold bind.
  destruct (step_inv w o Hinv) as [(w' & -> & Hinv')|(c & _ & _ & ->)].
  - by apply IH.
  - done.
Qed.

(** When every Subscribe in the sequence asks for a capacity [make]
    grants, the whole sequence returns. *)
Lemma run_ops_returns ops w :
  bus_inv w -> Forall valid_capacity ops ->
  exists w', run_ops ops w = Returned tt w' /\ bus_inv w'.
Proof.
  revert w. induction ops as [|o ops IH]; intros w Hinv Hcap.
  - by exists w.
  - apply Forall_cons in Hcap as [Ho Hcap]. simpl. unfold bind.
    destruct (step_inv w o Hinv) as [(w' & -> & Hinv')|(c & -> & Hneg & _)].
    + by apply IH.
    + simpl in Ho. lia.
Qed.

(** ** A handle outside the registry is out of the bus's reach *)

Lemma step_detached w o w' l :
  bus_inv w -> (l < length (heap w))%nat -> Chan l ∉ registry w ->
  step o w = Returned tt w' ->
  heap w' !! l = heap w !! l
  /\ (l < length (heap w'))%nat /\ Chan l ∉ registry w'.
Proof.
  intros Hinv Hl Hout Hstep.
  assert (Hkeep : forall w1, heap w1 !! l = heap w !! l ->
                    (l < length (heap w1))%nat).
  { intros w1 Heq. apply lookup_lt_is_Some. rewrite Heq.
    by apply lookup_lt_is_Some. }
  destruct o as [capacity|e|ch|]; simpl in Hstep.
  - unfold bind in Hstep.
    destruct (capacity_cases capacity) as [Hpos|Hneg];
      [|by rewrite Subscribe_rejected in Hstep].
    rewrite Subscribe_ok in Hstep by done. injection Hstep as <-.
    unfold registry. simpl. rewrite elems_append. fold (registry w).
    split; [by apply lookup_app_l|]. split.
    + rewrite length_app. lia.
    + intros [?|Heq%list_elem_of_singleton]%elem_of_app; [done|].
      injection Heq as ->. lia.
  - destruct (Publish_spec w e Hinv) as (w1 & Hrun & _ & Heb & Hheap).
    rewrite Hrun in Hstep. injection Hstep as <-.
    specialize (Hheap l). rewrite decide_False in Hheap by done.
    split; [done|]. split; [by apply Hkeep|].
    unfold registry. by rewrite Heb.
  - destruct (decide (ch ∈ registry w)) as [Hin|Hnin].
    + assert (Hop : is_open w ch = true).
      { destruct Hinv as [_ Hall]. by eapply Forall_forall in Hall. }
      destruct (is_open_lookup _ _ Hop) as (l0 & q0 & -> & _).
      destruct (Unsubscribe_spec w l0 Hinv Hin)
        as (pre & post & q & Hreg & _ & Hq & _ & Hrun).
      rewrite Hrun in Hstep. injection Hstep as <-.
      assert (l <> l0) by (intros ->; done).
      unfold registry. simpl. split; [by apply list_lookup_insert_ne|].
      split; [by rewrite length_insert|].
      rewrite Hreg in Hout. intros [?|?]%elem_of_app; apply Hout.
      * apply elem_of_app. by left.
      * apply elem_of_app. right. by right.
    + rewrite Unsubscribe_notin in Hstep by done. by injection Hstep as <-.
  - destruct (Close_spec w Hinv) as (w1 & Hrun & Hnil & Hheap).
    rewrite Hrun in Hstep. injection Hstep as <-.
    specialize (Hheap l). rewrite decide_False in Hheap by done.
    split; [done|]. split; [by apply Hkeep|].
    unfold registry. rewrite Hnil. apply not_elem_of_nil.
Qed.

Lemma run_ops_detached ops w w' l :
  bus_inv w -> (l < length (heap w))%nat -> Chan l ∉ registry w ->
  run_ops ops w = Returned tt w' ->
  heap w' !! l = heap w !! l /\ Chan l ∉ registry w'.
Proof.
  revert w. induction ops as [|o ops IH]; intros w Hinv Hl Hout Hrun.
  - by injection Hrun as <-.
  - simpl in Hrun. unfold bind in Hrun.
    destruct (step_inv w o Hinv) as [(w1 & Hstep & Hinv1)|(c & _ & _ & Hp)].
    + rewrite Hstep in Hrun.
      destruct (step_detached w o w1 l Hinv Hl Hout Hstep) as (Heq & Hl1 & Hout1).
      destruct (IH w1 Hinv1 Hl1 Hout1 Hrun) as [Heq' Hout'].
      by rewrite Heq', Heq.
    + by rewrite Hp in Hrun.
Qed.

(** ** The consumer's side *)

(** A closed channel hands out what is buffered, oldest first, and then
    reports the end of the stream, as often as it is asked. *)
Lemma recv_n_closed (b : list event) w l capacity :
  heap w !! l = Some (Hchan capacity b true) ->
  exists w',
    recv_n (S (length b)) (Chan l) w =
      Returned ((RecvValue <$> b) ++ [RecvClosed]) w'
    /\ chanrecv (Chan l) w' = Returned RecvClosed w'
    /\ eb w' = eb w.
Proof.
  revert w. induction b as [|e b IH]; intros w Hq.
  - exists w. simpl. unfold bind, chanrecv. by rewrite Hq.
  - set (w1 := set_chan l (Hchan capacity b true) w).
    assert (Hq1 : heap w1 !! l = Some (Hchan capacity b true)).
    { unfold w1. rewrite (heap_set_chan w l l _ Hq). by rewrite decide_True. }
    destruct (IH w1 Hq1) as (w' & Hrun & Heos & Heb).
    exists w'. split; [|done].
    change (recv_n (S (length (e :: b))) (Chan l) w)
      with (bind (chanrecv (Chan l))
              (fun r => bind (recv_n (S (length b)) (Chan l))
                          (fun rs => ret (r :: rs))) w).
    unfold bind at 1. unfold chanrecv at 1. rewrite Hq.
    simpl buf. simpl dataqsiz. simpl closed. cbv iota.
    fold w1. unfold bind. by rewrite Hrun.
Qed.

(** ** One subscriber, many events *)



(** ** The properties of the specification *)


(** C2 (fan-out). When the registry holds distinct open subscriptions
    (the invariant of every reachable bus, C8 and C9) and each of them has
    a free slot, one Publish(e) returns normally, having visited the
    subscriptions in registry order and enqueued [e] at the back of each
    one's queue; the registry and all other channels are as before. *)
Theorem C2_fan_out w e :
  bus_inv w ->
  Forall (fun ch => has_room w ch = true) (registry w) ->
  exists w',
    Publish e w = Returned tt w'
    /\ publish_range e (registry w) w =
         Returned ((fun ch => (ch, Enqueued)) <$> registry w) w'
    /\ registry w' = registry w
    /\ (forall l, Chan l ∈ registry w ->
          exists q, heap w !! l = Some q
            /\ heap w' !! l = Some (Hchan (dataqsiz q) (buf q ++ [e]) false))
    /\ (forall l, Chan l ∉ registry w -> heap w' !! l = heap w !! l).
Proof.
  intros Hinv Hroom.
  destruct (Publish_spec w e Hinv) as (w' & Hpub & Hlog & Heb & Hheap).
  exists w'. split; [done|]. split; [|split; [|split]].
  - rewrite Hlog. f_equal. apply Forall_fmap_ext, Forall_forall.
    intros ch Hch. eapply Forall_forall in Hroom; [|done]. by rewrite Hroom.
  - unfold registry. by rewrite Heb.
  - intros l Hin. destruct Hinv as [_ Hall].
    eapply Forall_forall in Hall; [|done].
    eapply Forall_forall in Hroom; [|done].
    destruct (is_open_lookup _ _ Hall) as (l' & q & [= <-] & Hq & Hc).
    exists q. split; [done|].
    rewrite Hheap, decide_True, Hq by done. simpl. f_equal.
    unfold has_room, chan_at in Hroom. rewrite Hq in Hroom.
    unfold offer. by rewrite Hroom, Hc.
  - intros l Hnin. by rewrite Hheap, decide_False.
Qed.

(** C3 (unsubscribe terminates the stream). For a handle [h] of the
    registry, Unsubscribe(h) returns normally; it cuts [h] out of the
    registry, the others keeping their order, so that the count drops by
    one; it closes the queue of [h] and leaves what is buffered there, so
    that the consumer receives the buffered events and then end-of-stream;
    and whatever the bus is asked to do afterwards (any sequence of
    Subscribe, Publish, Unsubscribe and Close) leaves the queue of [h]
    untouched and [h] out of the registry. *)
Theorem C3_unsubscribe_terminates w l :
  bus_inv w -> Chan l ∈ registry w ->
  exists w' pre post q,
    Unsubscribe (Chan l) w = Returned tt w'
    /\ registry w = pre ++ Chan l :: post
    /\ registry w' = pre ++ post
    /\ (Chan l ∉ registry w')
    /\ S (length (registry w')) = length (registry w)
    /\ heap w !! l = Some q
    /\ heap w' !! l = Some (Hchan (dataqsiz q) (buf q) true)
    /\ (exists w'',
          recv_n (S (length (buf q))) (Chan l) w' =
            Returned ((RecvValue <$> buf q) ++ [RecvClosed]) w''
          /\ chanrecv (Chan l) w'' = Returned RecvClosed w'')
    /\ (forall e, exists w'',
          Publish e w' = Returned tt w''
          /\ heap w'' !! l = heap w' !! l)
    /\ (forall ops w'',
          run_ops ops w' = Returned tt w'' ->
          heap w'' !! l = heap w' !! l /\ Chan l ∉ registry w'').
Proof.
  intros Hinv Hin.
  destruct (Unsubscribe_spec w l Hinv Hin)
    as (pre & post & q & Hreg & Hout & Hq & Hc & Hrun).
  set (w' := World (<[l:=shut q]> (heap w)) (EventBus (Some (pre ++ post))))
    in *.
  assert (Hinv' : bus_inv w') by (eapply bus_inv_Unsubscribe; done).
  assert (Hl : (l < length (heap w))%nat) by (eapply lookup_lt_Some; done).
  assert (Hq' : heap w' !! l = Some (shut q)).
  { unfold w'. simpl. by apply list_lookup_insert_eq. }
  assert (Hl' : (l < length (heap w'))%nat) by (eapply lookup_lt_Some; done).
  exists w', pre, post, q.
  split; [done|]. split; [done|]. split; [done|]. split; [done|]. split.
  { rewrite Hreg. unfold registry, w'. simpl. rewrite !length_app. simpl. lia. }
  split; [done|]. split; [done|]. split; [|split].
  - destruct (recv_n_closed (buf q) w' l (dataqsiz q) Hq')
      as (w'' & Hrecv & Heos & _).
    by exists w''.
  - intros e. destruct (Publish_spec w' e Hinv') as (w'' & Hpub & _).
    exists w''. split; [done|].
    by apply (run_ops_detached [OpPublish e] w' w'' l Hinv' Hl' Hout);
      simpl; unfold bind; rewrite Hpub.
  - intros ops w'' Hops. by apply (run_ops_detached ops w' w'' l).
Qed.

(** C4 (Close is total). From a registry of distinct open subscriptions,
    Close() returns normally; afterwards the registry is the nil slice
    (Subscribers() returns it, of length 0), every subscription that was
    registered is closed with its buffered events intact, so that its
    consumer receives them and then end-of-stream, and no other channel
    has changed. *)
Theorem C4_close_total w :
  bus_inv w ->
  exists w',
    Close w = Returned tt w'
    /\ Subscribers w' = Returned None w'
    /\ registry w' = []
    /\ (forall l, Chan l ∈ registry w ->
          exists q w'',
            heap w !! l = Some q
            /\ heap w' !! l = Some (Hchan (dataqsiz q) (buf q) true)
            /\ recv_n (S (length (buf q))) (Chan l) w' =
                 Returned ((RecvValue <$> buf q) ++ [RecvClosed]) w''
            /\ chanrecv (Chan l) w'' = Returned RecvClosed w'')
    /\ (forall l, Chan l ∉ registry w -> heap w' !! l = heap w !! l).
Proof.
  intros Hinv.
  destruct (Close_spec w Hinv) as (w' & Hrun & Hnil & Hheap).
  exists w'. split; [done|]. split; [|split; [|split]].
  - unfold Subscribers, get_subscribers. by rewrite Hnil.
  - unfold registry. by rewrite Hnil.
  - intros l Hin. destruct Hinv as [_ Hall].
    eapply Forall_forall in Hall; [|done].
    destruct (is_open_lookup _ _ Hall) as (l' & q & [= <-] & Hq & Hc).
    assert (Hq' : heap w' !! l = Some (shut q)).
    { by rewrite Hheap, decide_True, Hq. }
    destruct (recv_n_closed (buf q) w' l (dataqsiz q) Hq')
      as (w'' & Hrecv & Heos & _).
    by exists q, w''.
  - intros l Hnin. by rewrite Hheap, decide_False.
Qed.

(** C6 (unknown handle). Unsubscribe of a handle that is not in the
    registry (nil, removed earlier, or made elsewhere) returns normally
    with the world unchanged: same registry, no channel closed. *)
Theorem C6_unknown_handle_noop w ch :
  ch ∉ registry w -> Unsubscribe ch w = Returned tt w.
Proof. apply Unsubscribe_notin. Qed.

(** A step closes a channel only by taking it out of the registry. *)
Lemma step_closes w o w' l q q' :
  bus_inv w -> step o w = Returned tt w' ->
  heap w !! l = Some q -> closed q = false ->
  heap w' !! l = Some q' -> closed q' = true ->
  Chan l ∈ registry w /\ Chan l ∉ registry w'.
Proof.
  intros Hinv Hstep Hq Hc Hq' Hc'.
  destruct (decide (Chan l ∈ registry w)) as [Hin|Hout].
  - split; [done|]. intros Hin'.
    destruct (step_inv w o Hinv) as [(w1 & Hs & [_ Hall])|(? & _ & _ & Hp)];
      [|by rewrite Hp in Hstep].
    rewrite Hs in Hstep. injection Hstep as ->.
    eapply Forall_forall in Hall; [|done].
    unfold is_open, chan_at in Hall. rewrite Hq', Hc' in Hall. done.
  - exfalso.
    assert (Hl : (l < length (heap w))%nat) by (eapply lookup_lt_Some; done).
    destruct (step_detached w o w' l Hinv Hl Hout Hstep) as (Heq & _).
    rewrite Heq, Hq in Hq'. injection Hq' as <-. congruence.
Qed.

Lemma Close_returned w w' :
  Close w = Returned tt w' -> subscribers (eb w') = None.
Proof.
  unfold Close, bind, get_subscribers, set_subscribers.
  destruct (close_range _ w) as [[] w1|p w1|]; [|done..].
  by intros [= <-].
Qed.

Lemma bus_inv_nil w : registry w = [] -> bus_inv w.
Proof.
  intros Hnil. unfold bus_inv. rewrite Hnil.
  split; [apply NoDup_nil_2|apply Forall_nil_2].
Qed.

(** C8 (no duplicates). In every world reached from a fresh bus by a
    sequence of Subscribe, Publish, Unsubscribe and Close, the registry
    holds no handle twice; a Subscribe from there returns a handle that is
    not in the registry and appends it at the end. *)
Theorem C8_no_duplicate_handles (h0 : list (hchan event)) ops w :
  run_ops ops (New h0) = Returned tt w ->
  NoDup (registry w)
  /\ forall capacity ch w',
       Subscribe capacity w = Returned ch w' ->
       (ch ∉ registry w) /\ registry w' = registry w ++ [ch]
       /\ NoDup (registry w').
Proof.
  intros Hrun.
  pose proof (run_ops_inv ops (New h0) (bus_inv_New h0)) as Hinv.
  rewrite Hrun in Hinv. split; [by destruct Hinv|].
  intros capacity ch w' Hsub.
  pose proof (bus_inv_Subscribe w capacity ch w' Hinv Hsub) as [Hnd' _].
  destruct (capacity_cases capacity) as [Hpos|Hneg];
    [|by rewrite Subscribe_rejected in Hsub].
  rewrite Subscribe_ok in Hsub by done. injection Hsub as <- <-.
  assert (Hreg : registry
            (World (heap w ++ [Hchan capacity [] false])
               (EventBus (append (subscribers (eb w))
                                 [Chan (length (heap w))])))
          = registry w ++ [Chan (length (heap w))]).
  { unfold registry. simpl. by rewrite elems_append. }
  split; [|done]. rewrite Hreg in Hnd'.
  apply NoDup_app in Hnd' as (_ & Hdisj & _).
  intros Hin. apply (Hdisj _ Hin). by apply list_elem_of_singleton.
Qed.

(** C9 (single close). In every world reached from a fresh bus by a
    sequence of bus operations, every handle in the registry is open; no
    next operation panics on closing a channel (the only panic left is
    the one of [make] on a capacity it rejects); and when an operation does
    close a channel that was open, that channel was in the registry before
    the operation and is out of it afterwards. *)
Theorem C9_single_close (h0 : list (hchan event)) ops w :
  run_ops ops (New h0) = Returned tt w ->
  Forall (fun ch => is_open w ch = true) (registry w)
  /\ (forall o p w', step o w = Panicked p w' ->
        p = MakechanSizeOutOfRange /\ w' = w)
  /\ (forall o, step o w <> Undefined)
  /\ (forall o w' l q q',
        step o w = Returned tt w' ->
        heap w !! l = Some q -> closed q = false ->
        heap w' !! l = Some q' -> closed q' = true ->
        Chan l ∈ registry w /\ Chan l ∉ registry w').
Proof.
  intros Hrun.
  pose proof (run_ops_inv ops (New h0) (bus_inv_New h0)) as Hinv.
  rewrite Hrun in Hinv. split; [by destruct Hinv|]. split; [|split].
  - intros o p w' Hp.
    destruct (step_inv w o Hinv) as [(w1 & Hs & _)|(? & _ & _ & Hp')].
    + by rewrite Hs in Hp.
    + rewrite Hp' in Hp. by injection Hp as <- <-.
  - intros o Hu.
    destruct (step_inv w o Hinv) as [(w1 & Hs & _)|(? & _ & _ & Hp')];
      congruence.
  - intros o w' l q q'. by apply step_closes.
Qed.

(** C10 (after Close), amended. Once Close() has returned, a second
    Close() returns with nothing changed, Publish returns having visited
    no subscription and changed nothing, and Unsubscribe of any handle
    returns with nothing changed.  Subscribe(c) with a capacity [make]
    grants, [0 <= c <= maxChanCap], returns a fresh open empty
    subscription registered alone, exactly as on a fresh bus over the same
    heap; with any other capacity it panics in [make] with nothing
    changed, which is the one panic left: every sequence of operations
    with granted capacities runs to its end, and a sequence that panics
    does so with "makechan: size out of range". *)
Theorem C10_post_close w w1 :
  Close w = Returned tt w1 ->
  Close w1 = Returned tt w1
  /\ (forall e, Publish e w1 = Returned tt w1
               /\ publish_range e (registry w1) w1 = Returned [] w1)
  /\ (forall ch, Unsubscribe ch w1 = Returned tt w1)
  /\ (forall capacity, 0 <= capacity <= maxChanCap ->
        Subscribe capacity w1 =
          Returned (Chan (length (heap w1)))
            (World (heap w1 ++ [Hchan capacity [] false])
                   (EventBus (Some [Chan (length (heap w1))])))
        /\ Subscribe capacity w1 = Subscribe capacity (New (heap w1)))
  /\ (forall capacity, capacity < 0 \/ maxChanCap < capacity ->
        Subscribe capacity w1 = Panicked MakechanSizeOutOfRange w1)
  /\ (forall ops, Forall valid_capacity ops ->
        exists w', run_ops ops w1 = Returned tt w')
  /\ (forall ops p w', run_ops ops w1 = Panicked p w' ->
        p = MakechanSizeOutOfRange).
Proof.
  intros Hcl. apply Close_returned in Hcl.
  assert (Hreg : registry w1 = []) by (unfold registry; by rewrite Hcl).
  pose proof (bus_inv_nil _ Hreg) as Hinv.
  split; [|split; [|split; [|split; [|split; [|split]]]]].
  - destruct w1 as [h [s]]. simpl in Hcl. by subst s.
  - destruct w1 as [h [s]]. simpl in Hcl. by subst s.
  - intros ch. apply Unsubscribe_notin. rewrite Hreg. apply not_elem_of_nil.
  - intros capacity Hc. rewrite !Subscribe_ok by done.
    destruct w1 as [h [s]]. simpl in Hcl. by subst s.
  - intros capacity Hc. by apply Subscribe_rejected.
  - intros ops Hops.
    destruct (run_ops_returns ops _ Hinv Hops) as (w' & ? & _).
    by exists w'.
  - intros ops p w' Hp. pose proof (run_ops_inv ops w1 Hinv) as Hrun.
    rewrite Hp in Hrun. by destruct Hrun.
Qed.

(** C5 (misuse), amended. From a registry of distinct open subscriptions
    the first Close() returns and leaves the registry nil, so a second
    Close() finds nothing to close and returns with the world unchanged,
    and so does a Publish.  Closing a queue a second time is a panic,
    "close of closed channel": that is what a close of any of the handles
    that were registered gives after Close(). *)
Theorem C5_close_twice_returns w :
  bus_inv w ->
  exists w1,
    Close w = Returned tt w1
    /\ Close w1 = Returned tt w1
    /\ (forall e, Publish e w1 = Returned tt w1)
    /\ (forall l, Chan l ∈ registry w ->
          closechan (Chan l) w1 = Panicked CloseOfClosedChannel w1).
Proof.
  intros Hinv.
  destruct (Close_spec w Hinv) as (w1 & Hrun & Hnil & Hheap).
  exists w1. split; [done|].
  assert (Hreg : registry w1 = []) by (unfold registry; by rewrite Hnil).
  split; [|split].
  - destruct w1 as [h [s]]. simpl in Hnil. by subst s.
  - intros e. destruct w1 as [h [s]]. simpl in Hnil. by subst s.
  - intros l Hin. destruct Hinv as [_ Hall].
    eapply Forall_forall in Hall; [|done].
    destruct (is_open_lookup _ _ Hall) as (l' & q & [= <-] & Hq & Hc).
    apply (closechan_closed w1 l (shut q)); [|done].
    by rewrite Hheap, decide_True, Hq.
Qed.

End Properties.

(** ** Instances on concrete worlds *)



Lemma C2_fan_out_witness :
  bus_inv demo_world /\
  Forall (fun ch => has_room demo_world ch = true) (registry demo_world) /\
  exists w',
    Publish "x"%string demo_world = Returned tt w'
    /\ publish_range "x"%string (registry demo_world) demo_world =
         Returned ((fun ch => (ch, Enqueued)) <$> registry demo_world) w'
    /\ registry w' = registry demo_world
    /\ (forall l, Chan l ∈ registry demo_world ->
          exists q, heap demo_world !! l = Some q
            /\ heap w' !! l =
                 Some (Hchan (dataqsiz q) (buf q ++ ["x"%string]) false))
    /\ (forall l, Chan l ∉ registry demo_world ->
          heap w' !! l = heap demo_world !! l).
Proof.
  split; [compute_done|]. split; [compute_done|].
  apply (C2_fan_out demo_world "x"%string); compute_done.
Defined.

Lemma C3_unsubscribe_terminates_witness :
  bus_inv demo_world /\ Chan 0 ∈ registry demo_world /\
  exists w' pre post q,
    Unsubscribe (Chan 0) demo_world = Returned tt w'
    /\ registry demo_world = pre ++ Chan 0 :: post
    /\ registry w' = pre ++ post
    /\ (Chan 0 ∉ registry w')
    /\ S (length (registry w')) = length (registry demo_world)
    /\ heap demo_world !! 0%nat = Some q
    /\ heap w' !! 0%nat = Some (Hchan (dataqsiz q) (buf q) true)
    /\ (exists w'',
          recv_n (S (length (buf q))) (Chan 0) w' =
            Returned ((RecvValue <$> buf q) ++ [RecvClosed]) w''
          /\ chanrecv (Chan 0) w'' = Returned RecvClosed w'')
    /\ (forall e, exists w'',
          Publish e w' = Returned tt w''
          /\ heap w'' !! 0%nat = heap w' !! 0%nat)
    /\ (forall ops w'',
          run_ops ops w' = Returned tt w'' ->
          heap w'' !! 0%nat = heap w' !! 0%nat /\ Chan 0 ∉ registry w'').
Proof.
  split; [compute_done|]. split; [compute_done|].
  apply (C3_unsubscribe_terminates demo_world 0); compute_done.
Defined.

Lemma C4_close_total_witness :
  bus_inv demo_world /\
  exists w',
    Close demo_world = Returned tt w'
    /\ Subscribers w' = Returned None w'
    /\ registry w' = []
    /\ (forall l, Chan l ∈ registry demo_world ->
          exists q w'',
            heap demo_world !! l = Some q
            /\ heap w' !! l = Some (Hchan (dataqsiz q) (buf q) true)
            /\ recv_n (S (length (buf q))) (Chan l) w' =
                 Returned ((RecvValue <$> buf q) ++ [RecvClosed]) w''
            /\ chanrecv (Chan l) w'' = Returned RecvClosed w'')
    /\ (forall l, Chan l ∉ registry demo_world ->
          heap w' !! l = heap demo_world !! l).
Proof.
  split; [compute_done|]. apply (C4_close_total demo_world). compute_done.
Defined.

(** C5, as stated, fails: on a bus with one subscriber, Close() followed
    by Close() returns normally; nothing panics. *)
Lemma C5_second_close_no_panic :
  run_ops [OpSubscribe 1; OpClose; OpClose] (New (event:=string) []) =
    Returned tt (World [Hchan 1 [] true] (EventBus None))
  /\ ~ (exists p w',
         run_ops [OpSubscribe 1; OpClose; OpClose] (New (event:=string) []) =
           Panicked p w').
Proof.
  split; [reflexivity|]. intros (p & w' & Hp). discriminate Hp.
Qed.

Lemma C5_close_twice_returns_witness :
  bus_inv demo_world /\
  exists w1,
    Close demo_world = Returned tt w1
    /\ Close w1 = Returned tt w1
    /\ (forall e, Publish e w1 = Returned tt w1)
    /\ (forall l, Chan l ∈ registry demo_world ->
          closechan (Chan l) w1 = Panicked CloseOfClosedChannel w1).
Proof.
  split; [compute_done|]. apply (C5_close_twice_returns demo_world).
  compute_done.
Defined.

Lemma C6_unknown_handle_noop_witness :
  (Chan 2 ∉ registry demo_world) /\
  Unsubscribe (Chan 2) demo_world = Returned tt demo_world.
Proof.
  split; [compute_done|].
  apply (C6_unknown_handle_noop demo_world (Chan 2)). compute_done.
Defined.

(** C7 (the scenario of the specification), run on a fresh bus in a process
    with no other channel: [h1] is [Chan 0] and [h2] is [Chan 1]. *)
Theorem C7_concrete_scenario :
  exists w1 w2 w3 w4 w5 w4' w5' : world string,
    Subscribe 2 (New []) = Returned (Chan 0) w1
    /\ Subscribe 2 w1 = Returned (Chan 1) w2
    /\ run_ops [OpPublish "a"; OpPublish "b"; OpPublish "c"]%string w2 =
         Returned tt w3
    /\ run_ops [OpPublish "a"; OpPublish "b"]%string w2 = Returned tt w3
    /\ publish_range "c"%string (registry w3) w3 =
         Returned [(Chan 0, Dropped); (Chan 1, Dropped)] w3
    /\ buf <$> chan_at w3 (Chan 0) = Some ["a"; "b"]%string
    /\ buf <$> chan_at w3 (Chan 1) = Some ["a"; "b"]%string
    /\ Unsubscribe (Chan 0) w3 = Returned tt w4
    /\ recv_n 3 (Chan 0) w4 =
         Returned [RecvValue "a"; RecvValue "b"; RecvClosed]%string w4'
    /\ Subscribers w4 = Returned (Some [Chan 1]) w4
    /\ length (registry w4) = 1%nat
    /\ is_open w4 (Chan 1) = true
    /\ Close w4 = Returned tt w5
    /\ recv_n 3 (Chan 1) w5 =
         Returned [RecvValue "a"; RecvValue "b"; RecvClosed]%string w5'
    /\ Subscribers w5 = Returned None w5
    /\ registry w5 = [].
Proof. do 7 eexists. repeat split; reflexivity. Qed.

Lemma C8_no_duplicate_handles_witness :
  run_ops demo_ops (New []) = Returned tt demo_world /\
  (NoDup (registry demo_world)
   /\ forall capacity ch w',
        Subscribe capacity demo_world = Returned ch w' ->
        (ch ∉ registry demo_world)
        /\ registry w' = registry demo_world ++ [ch]
        /\ NoDup (registry w')).
Proof.
  split; [reflexivity|].
  apply (C8_no_duplicate_handles [] demo_ops demo_world). reflexivity.
Defined.

Lemma C9_single_close_witness :
  run_ops demo_ops (New []) = Returned tt demo_world /\
  (Forall (fun ch => is_open demo_world ch = true) (registry demo_world)
   /\ (forall o p w', step o demo_world = Panicked p w' ->
         p = MakechanSizeOutOfRange /\ w' = demo_world)
   /\ (forall o, step o demo_world <> Undefined)
   /\ (forall o w' l q q',
         step o demo_world = Returned tt w' ->
         heap demo_world !! l = Some q -> closed q = false ->
         heap w' !! l = Some q' -> closed q' = true ->
         Chan l ∈ registry demo_world /\ Chan l ∉ registry w')).
Proof.
  split; [reflexivity|].
  apply (C9_single_close [] demo_ops demo_world). reflexivity.
Defined.

(** C10, as stated, fails: after Close() a Subscribe with the capacity
    [2 ^ 45] panics, through the public interface. *)
Lemma C10_subscribe_after_close_panics :
  Close demo_world = Returned tt demo_closed
  /\ 0 <= huge_capacity
  /\ Subscribe huge_capacity demo_closed =
       Panicked MakechanSizeOutOfRange demo_closed
  /\ run_ops [OpClose; OpSubscribe huge_capacity] demo_world =
       Panicked MakechanSizeOutOfRange demo_closed.
Proof.
  split; [reflexivity|]. split; [by vm_compute|].
  split; reflexivity.
Qed.

Lemma C10_post_close_witness :
  Close demo_world = Returned tt demo_closed /\
  (Close demo_closed = Returned tt demo_closed
   /\ (forall e, Publish e demo_closed = Returned tt demo_closed
                /\ publish_range e (registry demo_closed) demo_closed =
                     Returned [] demo_closed)
   /\ (forall ch, Unsubscribe ch demo_closed = Returned tt demo_closed)
   /\ (forall capacity, 0 <= capacity <= maxChanCap ->
         Subscribe capacity demo_closed =
           Returned (Chan (length (heap demo_closed)))
             (World (heap demo_closed ++ [Hchan capacity [] false])
                    (EventBus (Some [Chan (length (heap demo_closed))])))
         /\ Subscribe capacity demo_closed =
              Subscribe capacity (New (heap demo_closed)))
   /\ (forall capacity, capacity < 0 \/ maxChanCap < capacity ->
         Subscribe capacity demo_closed =
           Panicked MakechanSizeOutOfRange demo_closed)
   /\ (forall ops, Forall valid_capacity ops ->
         exists w', run_ops ops demo_closed = Returned tt w')
   /\ (forall ops p w', run_ops ops demo_closed = Panicked p w' ->
         p = MakechanSizeOutOfRange)).
Proof.
  split; [reflexivity|].
  apply (C10_post_close demo_world demo_closed). reflexivity.
Defined.

(** * Further properties of the bus *)

Section Further.

Context {event : Type} {platform : Platform}.
Implicit Types (w : world event) (q : hchan event) (ch : chan) (l : nat).
Implicit Types (e : event) (es : list event) (rest : list chan).

(** ** Many events, many subscribers *)

Lemma fill_nil q : fill [] q = q.
Proof. unfold fill. rewrite take_nil, app_nil_r. by destruct q. Qed.

Lemma fill_cons e es q : fill (e :: es) q = fill es (offer e q).
Proof.
  unfold fill, offer.
  destruct (Z.ltb_spec (Z.of_nat (length (buf q))) (dataqsiz q))
    as [Hroom|Hfull]; simpl.
  - rewrite length_app. simpl. rewrite <- app_assoc. simpl.
    replace (Z.to_nat (dataqsiz q) - length (buf q))%nat
      with (S (Z.to_nat (dataqsiz q) - (length (buf q) + 1)))%nat by lia.
    done.
  - replace (Z.to_nat (dataqsiz q) - length (buf q))%nat with 0%nat by lia.
    done.
Qed.

Lemma publish_all_spec es w :
  bus_inv w ->
  exists w',
    run_ops (OpPublish <$> es) w = Returned tt w'
    /\ eb w' = eb w
    /\ bus_inv w'
    /\ forall l, heap w' !! l =
         if decide (Chan l ∈ registry w) then fill es <$> heap w !! l
         else heap w !! l.
Proof.
  revert w. induction es as [|e es IH]; intros w Hinv.
  - exists w. split; [done|]. split; [done|]. split; [done|]. intros l.
    case_decide; [|done]. destruct (heap w !! l) as [q|]; [|done].
    simpl. by rewrite fill_nil.
  - destruct (Publish_spec w e Hinv) as (w1 & Hpub & _ & Heb1 & Hheap1).
    pose proof (bus_inv_Publish w e w1 Hinv Hpub) as Hinv1.
    destruct (IH w1 Hinv1) as (w' & Hrun & Heb & Hinv' & Hheap).
    exists w'. split; [|split; [|split]].
    + change (run_ops (OpPublish <$> e :: es) w)
        with (bind (Publish e) (fun _ => run_ops (OpPublish <$> es)) w).
      unfold bind. by rewrite Hpub.
    + by rewrite Heb.
    + done.
    + intros l. rewrite Hheap, Hheap1. unfold registry. rewrite Heb1.
      fold (registry w). case_decide; [|done].
      destruct (heap w !! l) as [q|]; [|done]. simpl. by rewrite fill_cons.
Qed.

(** X1. Publishing the events [es] one after the other to any number of
    subscriptions returns normally and gives each subscription as many of
    them as its own queue has free slots, in publish order, behind what was
    already pending there: a full or slow subscriber costs the others
    nothing.  The registry and every channel outside it stay as they are. *)
Theorem X1_publish_all_independent w es :
  bus_inv w ->
  exists w',
    run_ops (OpPublish <$> es) w = Returned tt w'
    /\ registry w' = registry w
    /\ (forall l q, Chan l ∈ registry w -> heap w !! l = Some q ->
          heap w' !! l =
            Some (Hchan (dataqsiz q)
                    (buf q ++ take (Z.to_nat (dataqsiz q) - length (buf q)) es)
                    false))
    /\ (forall l, Chan l ∉ registry w -> heap w' !! l = heap w !! l).
Proof.
  intros Hinv.
  destruct (publish_all_spec es w Hinv) as (w' & Hrun & Heb & _ & Hheap).
  exists w'. split; [done|]. split; [|split].
  - unfold registry. by rewrite Heb.
  - intros l q Hin Hq. rewrite Hheap, decide_True, Hq by done. simpl.
    destruct Hinv as [_ Hall]. eapply Forall_forall in Hall; [|done].
    unfold is_open, chan_at in Hall. rewrite Hq in Hall.
    unfold fill. by destruct (closed q).
  - intros l Hout. by rewrite Hheap, decide_False.
Qed.

(** ** Receiving *)

(** Receiving until nothing is left: the buffered events come out oldest
    first; what follows is end-of-stream on a closed channel and "nothing
    yet" on an open one. *)
Lemma recv_n_drain (b : list event) w l capacity (cl : bool) :
  heap w !! l = Some (Hchan capacity b cl) ->
  exists w',
    recv_n (S (length b)) (Chan l) w =
      Returned ((RecvValue <$> b)
                  ++ [if cl then RecvClosed else RecvWouldBlock]) w'
    /\ heap w' = <[l := Hchan capacity [] cl]> (heap w)
    /\ eb w' = eb w.
Proof.
  revert w. induction b as [|e b IH]; intros w Hq.
  - exists w. simpl. unfold bind, chanrecv. rewrite Hq. simpl.
    split; [by destruct cl|]. split; [|done].
    by rewrite list_insert_id.
  - set (w1 := set_chan l (Hchan capacity b cl) w).
    assert (Hq1 : heap w1 !! l = Some (Hchan capacity b cl)).
    { unfold w1. rewrite (heap_set_chan w l l _ Hq). by rewrite decide_True. }
    destruct (IH w1 Hq1) as (w' & Hrun & Hheap & Heb).
    exists w'. split; [|split].
    + change (recv_n (S (length (e :: b))) (Chan l) w)
        with (bind (chanrecv (Chan l))
                (fun r => bind (recv_n (S (length b)) (Chan l))
                            (fun rs => ret (r :: rs))) w).
      unfold bind at 1. unfold chanrecv at 1. rewrite Hq.
      simpl buf. simpl dataqsiz. simpl closed. cbv iota.
      fold w1. unfold bind. by rewrite Hrun.
    + rewrite Hheap. unfold w1, set_chan. simpl.
      by rewrite list_insert_insert_eq.
    + by rewrite Heb.
Qed.

(** X2. The consumer's view of X1: after the events [es] were published,
    the consumer of a registered subscription receives what was pending
    and then the first of [es] that fitted, in publish order; the receive
    after that finds nothing and the stream still open.  Nothing is
    delivered late and nothing out of order. *)
Theorem X2_receive_in_publish_order w es l q w' :
  bus_inv w -> Chan l ∈ registry w -> heap w !! l = Some q ->
  run_ops (OpPublish <$> es) w = Returned tt w' ->
  exists w'',
    recv_n
      (S (length
            (buf q ++ take (Z.to_nat (dataqsiz q) - length (buf q)) es)))
      (Chan l) w' =
      Returned
        ((RecvValue
            <$> (buf q ++ take (Z.to_nat (dataqsiz q) - length (buf q)) es))
           ++ [RecvWouldBlock]) w''
    /\ chanrecv (Chan l) w'' = Returned RecvWouldBlock w''
    /\ registry w'' = registry w.
Proof.
  intros Hinv Hin Hq Hrun.
  set (got := buf q ++ take (Z.to_nat (dataqsiz q) - length (buf q)) es).
  destruct (publish_all_spec es w Hinv) as (w1 & Hrun1 & Heb & _ & Hheap).
  rewrite Hrun1 in Hrun. injection Hrun as <-.
  assert (Hc : closed q = false).
  { destruct Hinv as [_ Hall]. eapply Forall_forall in Hall; [|done].
    unfold is_open, chan_at in Hall. rewrite Hq in Hall.
    by destruct (closed q). }
  assert (Hq1 : heap w1 !! l = Some (Hchan (dataqsiz q) got false)).
  { rewrite Hheap, decide_True, Hq by done. simpl. unfold fill.
    by rewrite Hc. }
  destruct (recv_n_drain got w1 l (dataqsiz q) false Hq1)
    as (w'' & Hrecv & Hheap' & Heb').
  exists w''. split; [done|]. split.
  - unfold chanrecv. rewrite Hheap'.
    rewrite list_lookup_insert_eq by (by eapply lookup_lt_Some). done.
  - unfold registry. by rewrite Heb', Heb.
Qed.

(** ** A consumer that closes its handle itself *)

Lemma bind_ret {A : Type} (m : M event A) w : bind m ret w = m w.
Proof. unfold bind, ret. by destruct (m w). Qed.

Lemma publish_range_app e r1 r2 w :
  publish_range e (r1 ++ r2) w =
    bind (publish_range e r1)
      (fun d1 => bind (publish_range e r2) (fun d2 => ret (d1 ++ d2))) w.
Proof.
  revert w. induction r1 as [|ch r1 IH]; intros w.
  - simpl. unfold bind at 1. unfold ret at 1. symmetry.
    apply (bind_ret (publish_range e r2)).
  - simpl. unfold bind, ret.
    destruct (chansend_nb ch e w) as [d w1|p w1|]; [|done..].
    rewrite IH. unfold bind, ret.
    destruct (publish_range e r1 w1) as [d1 w2|p w2|]; [|done..].
    destruct (publish_range e r2 w2) as [d2 w3|p w3|]; done.
Qed.

Lemma close_range_app r1 r2 w :
  close_range (r1 ++ r2) w =
    bind (close_range r1) (fun _ => close_range r2) w.
Proof.
  revert w. induction r1 as [|ch r1 IH]; intros w; [done|].
  simpl. unfold bind. destruct (closechan ch w) as [[] w1|p w1|]; [|done..].
  by rewrite IH.
Qed.

(** The world after the consumer of a registered handle closed it. *)
Lemma consumer_close_spec w0 pre l post w :
  bus_inv w0 -> registry w0 = pre ++ Chan l :: post ->
  closechan (Chan l) w0 = Returned tt w ->
  exists q,
    heap w0 !! l = Some q /\ closed q = false
    /\ w = set_chan l (shut q) w0
    /\ NoDup (pre ++ post)
    /\ (Chan l ∉ pre ++ post)
    /\ Forall (fun ch => is_open w ch = true) (pre ++ post).
Proof.
  intros [Hnd Hall] Hreg Hcl. rewrite Hreg in Hnd, Hall.
  apply NoDup_app in Hnd as (Hpre & Hdisj & Hpost).
  apply NoDup_cons in Hpost as [Hlpost Hpost].
  apply Forall_app in Hall as [Hopre Hopost].
  apply Forall_cons in Hopost as [Hop Hopost].
  destruct (is_open_lookup _ _ Hop) as (l' & q & [= <-] & Hq & Hc).
  rewrite (closechan_open w0 l q Hq Hc) in Hcl. injection Hcl as <-.
  assert (Hout : Chan l ∉ pre ++ post).
  { intros [Hin|Hin]%elem_of_app; [|done]. apply (Hdisj _ Hin). by left. }
  exists q. split; [done|]. split; [done|]. split; [done|]. split.
  { apply NoDup_app. split; [done|]. split; [|done].
    intros x Hx Hx'. apply (Hdisj x Hx). by right. }
  split; [done|].
  apply (Forall_open_set_chan w0 l q (shut q) (pre ++ post) Hq Hout).
  by apply Forall_app.
Qed.

(** X3. When the consumer of a registered handle has closed it, the next
    Publish panics with "send on closed channel".  By then the event has
    been offered to the subscriptions registered before that handle, and
    to none registered after it; the registry is as it was. *)
Theorem X3_publish_after_consumer_close w0 pre l post w e :
  bus_inv w0 -> registry w0 = pre ++ Chan l :: post ->
  closechan (Chan l) w0 = Returned tt w ->
  exists w',
    Publish e w = Panicked SendOnClosedChannel w'
    /\ registry w' = registry w0
    /\ (forall l', Chan l' ∈ pre ->
          heap w' !! l' = offer e <$> heap w0 !! l')
    /\ (forall l', Chan l' ∉ pre -> heap w' !! l' = heap w !! l').
Proof.
  intros Hinv Hreg Hcl.
  destruct (consumer_close_spec w0 pre l post w Hinv Hreg Hcl)
    as (q & Hq & Hc & -> & Hnd & Hout & Hall).
  set (w := set_chan l (shut q) w0) in *.
  apply NoDup_app in Hnd as (Hpre & _ & _).
  apply Forall_app in Hall as [Hopre _].
  assert (Hlpre : Chan l ∉ pre).
  { intros Hin. apply Hout, elem_of_app. by left. }
  destruct (publish_range_spec e pre w Hpre Hopre) as (w1 & Hrun & Heb & Hheap).
  assert (Hq1 : heap w1 !! l = Some (shut q)).
  { rewrite Hheap, decide_False by done. unfold w.
    rewrite (heap_set_chan w0 l l q Hq). by rewrite decide_True. }
  exists w1. split; [|split; [|split]].
  - unfold Publish, bind at 1, get_subscribers.
    change (elems (subscribers (eb w))) with (registry w0).
    rewrite Hreg. unfold bind at 1. rewrite publish_range_app.
    unfold bind at 1. rewrite Hrun. simpl. unfold bind at 1 2.
    unfold chansend_nb. by rewrite Hq1.
  - unfold registry. by rewrite Heb.
  - intros l' Hin. rewrite Hheap, decide_True by done. unfold w.
    rewrite (heap_set_chan w0 l l' q Hq), decide_False; [done|].
    by intros ->.
  - intros l' Hnin. by rewrite Hheap, decide_False.
Qed.

(** X4. In the same situation Close panics with "close of closed channel"
    and does not finish its work: the subscriptions before the handle are
    closed, those after it are still open and will not see the end of the
    stream, and the registry is not cleared.  Calling Close again panics
    again, with nothing changed. *)
Theorem X4_close_after_consumer_close w0 pre l post w :
  bus_inv w0 -> registry w0 = pre ++ Chan l :: post ->
  closechan (Chan l) w0 = Returned tt w ->
  exists w',
    Close w = Panicked CloseOfClosedChannel w'
    /\ subscribers (eb w') = subscribers (eb w0)
    /\ (forall l', Chan l' ∈ pre -> heap w' !! l' = shut <$> heap w0 !! l')
    /\ (forall ch, ch ∈ post -> is_open w' ch = true)
    /\ Close w' = Panicked CloseOfClosedChannel w'.
Proof.
  intros Hinv Hreg Hcl.
  destruct (consumer_close_spec w0 pre l post w Hinv Hreg Hcl)
    as (q & Hq & Hc & -> & Hnd & Hout & Hall).
  set (w := set_chan l (shut q) w0) in *.
  apply NoDup_app in Hnd as (Hpre & Hdisj & _).
  apply Forall_app in Hall as [Hopre Hopost].
  assert (Hlpre : Chan l ∉ pre).
  { intros Hin. apply Hout, elem_of_app. by left. }
  destruct (close_range_spec pre w Hpre Hopre) as (w1 & Hrun & Heb & Hheap).
  assert (Hq1 : heap w1 !! l = Some (shut q)).
  { rewrite Hheap, decide_False by done. unfold w.
    rewrite (heap_set_chan w0 l l q Hq). by rewrite decide_True. }
  assert (Hpanic : close_range (pre ++ Chan l :: post) w =
                     Panicked CloseOfClosedChannel w1).
  { rewrite close_range_app. unfold bind. rewrite Hrun. simpl.
    unfold bind. by rewrite (closechan_closed w1 l (shut q) Hq1). }
  assert (Hpre1 : forall l', Chan l' ∈ pre ->
                    heap w1 !! l' = shut <$> heap w0 !! l').
  { intros l' Hin. rewrite Hheap, decide_True by done. unfold w.
    rewrite (heap_set_chan w0 l l' q Hq), decide_False; [done|].
    by intros ->. }
  exists w1. split; [|split; [|split; [|split]]].
  - unfold Close, bind at 1, get_subscribers.
    change (elems (subscribers (eb w))) with (registry w0).
    rewrite Hreg. unfold bind. by rewrite Hpanic.
  - by rewrite Heb.
  - done.
  - intros ch Hin. eapply Forall_forall in Hopost; [|done].
    destruct (is_open_lookup _ _ Hopost) as (l' & q' & -> & Hq' & Hc').
    unfold is_open, chan_at. rewrite Hheap, decide_False, Hq', Hc'; [done|].
    intros Hin'. by apply (Hdisj _ Hin').
  - unfold Close, bind at 1, get_subscribers. rewrite Heb.
    change (elems (subscribers (eb w))) with (registry w0). rewrite Hreg.
    assert (Hhead : exists l0 q0 tl, pre ++ Chan l :: post = Chan l0 :: tl
                      /\ heap w1 !! l0 = Some q0 /\ closed q0 = true).
    { destruct pre as [|ch0 pre'].
      - exists l, (shut q), post. by rewrite Hq1.
      - apply Forall_cons in Hopre as [Hop0 _].
        destruct (is_open_lookup _ _ Hop0) as (l0 & q0 & -> & Hq0 & _).
        exists l0, (shut q0), (pre' ++ Chan l :: post). split; [done|].
        rewrite Hheap, decide_True, Hq0 by left. done. }
    destruct Hhead as (l0 & q0 & tl & -> & Hq0 & Hc0).
    simpl. unfold bind. by rewrite (closechan_closed w1 l0 q0 Hq0 Hc0).
Qed.

(** X5. Unsubscribe of a registered handle that its consumer has already
    closed panics too, but only after it has taken the handle out of the
    registry: the world at the panic has the other subscriptions in their
    order, distinct and open, so the bus works again for a caller that
    recovers. *)
Theorem X5_unsubscribe_after_consumer_close w0 pre l post w :
  bus_inv w0 -> registry w0 = pre ++ Chan l :: post ->
  closechan (Chan l) w0 = Returned tt w ->
  exists w',
    Unsubscribe (Chan l) w = Panicked CloseOfClosedChannel w'
    /\ heap w' = heap w
    /\ registry w' = pre ++ post
    /\ bus_inv w'.
Proof.
  intros Hinv Hreg Hcl.
  destruct (consumer_close_spec w0 pre l post w Hinv Hreg Hcl)
    as (q & Hq & Hc & -> & Hnd & Hout & Hall).
  set (w := set_chan l (shut q) w0) in *.
  assert (Hlpre : Chan l ∉ pre).
  { intros Hin. apply Hout, elem_of_app. by left. }
  assert (Hq1 : heap w !! l = Some (shut q)).
  { unfold w. rewrite (heap_set_chan w0 l l q Hq). by rewrite decide_True. }
  exists (World (heap w) (EventBus (Some (pre ++ post)))).
  split; [|split; [done|split; [done|]]].
  - rewrite (Unsubscribe_found w (Chan l) pre post); [|done..].
    by apply (closechan_closed (World (heap w) _) l (shut q)).
  - split; [done|]. apply Forall_forall. intros ch Hin.
    eapply Forall_forall in Hall; [|done]. done.
Qed.

(** ** Subscribing and unsubscribing *)

(** X6. Unsubscribing twice is safe: once a registered handle has been
    unsubscribed, a further Unsubscribe of it, right away or after any
    other bus operations (Close included), returns with nothing changed;
    the handle is never closed a second time. *)
Theorem X6_unsubscribe_again_noop w l w' :
  bus_inv w -> Chan l ∈ registry w ->
  Unsubscribe (Chan l) w = Returned tt w' ->
  Unsubscribe (Chan l) w' = Returned tt w'
  /\ forall ops w'',
       run_ops ops w' = Returned tt w'' ->
       Unsubscribe (Chan l) w'' = Returned tt w''.
Proof.
  intros Hinv Hin Huns.
  pose proof (bus_inv_Unsubscribe w (Chan l) w' Hinv Huns) as Hinv'.
  destruct (Unsubscribe_spec w l Hinv Hin)
    as (pre & post & q & Hreg & Hout & Hq & Hc & Hrun).
  rewrite Hrun in Huns. injection Huns as <-.
  set (w' := World (<[l:=shut q]> (heap w)) (EventBus (Some (pre ++ post))))
    in *.
  assert (Hl' : (l < length (heap w'))%nat).
  { unfold w'. simpl. rewrite length_insert. by eapply lookup_lt_Some. }
  split; [by apply Unsubscribe_notin|].
  intros ops w'' Hops. apply Unsubscribe_notin.
  by apply (run_ops_detached ops w' w'' l Hinv' Hl' Hout Hops).
Qed.

(** X7. Subscribe with a capacity [make] grants, followed by Unsubscribe
    of the handle it returned, puts the registry back to the same handles
    in the same order (as a non-nil slice, also when it was nil before);
    what remains is one more channel in the heap, empty and closed. *)
Theorem X7_subscribe_unsubscribe_round_trip w capacity :
  bus_inv w -> 0 <= capacity <= maxChanCap ->
  exists ch w1 w2,
    Subscribe capacity w = Returned ch w1
    /\ Unsubscribe ch w1 = Returned tt w2
    /\ subscribers (eb w2) = Some (registry w)
    /\ heap w2 = heap w ++ [Hchan capacity [] true]
    /\ bus_inv w2.
Proof.
  intros Hinv Hcap.
  set (l := length (heap w)).
  set (w1 := World (heap w ++ [Hchan capacity [] false])
                   (EventBus (append (subscribers (eb w)) [Chan l]))).
  assert (Hsub : Subscribe capacity w = Returned (Chan l) w1).
  { exact (Subscribe_ok w capacity Hcap). }
  pose proof (bus_inv_Subscribe w capacity (Chan l) w1 Hinv Hsub) as Hinv1.
  assert (Hreg1 : registry w1 = registry w ++ [Chan l]).
  { unfold registry, w1. simpl. by rewrite elems_append. }
  assert (Hfresh : Chan l ∉ registry w).
  { intros Hin. destruct Hinv as [_ Hall].
    eapply Forall_forall in Hall; [|done]. apply is_open_lt in Hall.
    unfold l in Hall. lia. }
  assert (Hq1 : heap w1 !! l = Some (Hchan capacity [] false)).
  { unfold w1, l. simpl. by rewrite list_lookup_middle. }
  set (w2 := World (heap w ++ [Hchan capacity [] true])
                   (EventBus (Some (registry w)))).
  assert (Huns : Unsubscribe (Chan l) w1 = Returned tt w2).
  { rewrite (Unsubscribe_found w1 (Chan l) (registry w) []); [|done..].
    rewrite (closechan_open
               (World (heap w1) (EventBus (Some (registry w ++ [])))) l _
               Hq1 eq_refl).
    unfold set_chan, w1, w2, l. simpl. rewrite app_nil_r. do 2 f_equal.
    rewrite insert_app_r_alt, Nat.sub_diag by done. done. }
  exists (Chan l), w1, w2. split; [done|]. split; [done|].
  split; [done|]. split; [done|].
  by apply (bus_inv_Unsubscribe w1 (Chan l) w2).
Qed.

Lemma append_append (s : slice) (xs ys : list chan) :
  xs <> [] -> append (append s xs) ys = append s (xs ++ ys).
Proof.
  intros Hxs. destruct s as [l0|]; simpl.
  - by rewrite <- app_assoc.
  - destruct xs; [done|]. done.
Qed.

Lemma subscribe_all_spec (capacities : list Z) w :
  Forall (fun capacity => 0 <= capacity <= maxChanCap) capacities ->
  subscribe_all capacities w =
    Returned (Chan <$> seq (length (heap w)) (length capacities))
      (World (heap w ++ ((fun capacity => Hchan capacity [] false)
                           <$> capacities))
             (EventBus
                (append (subscribers (eb w))
                   (Chan <$> seq (length (heap w)) (length capacities))))).
Proof.
  revert w. induction capacities as [|c capacities IH]; intros w Hcaps.
  - simpl. unfold ret. rewrite app_nil_r. destruct w as [h [s]]. simpl.
    destruct s as [l0|]; simpl; [by rewrite app_nil_r|done].
  - apply Forall_cons in Hcaps as [Hc Hcaps]. simpl subscribe_all.
    unfold bind. rewrite Subscribe_ok by done.
    rewrite (IH _ Hcaps). unfold ret. simpl heap. simpl eb.
    simpl subscribers. rewrite length_app. simpl length.
    replace (length (heap w) + 1)%nat with (S (length (heap w))) by lia.
    rewrite append_append by done. rewrite <- app_assoc. done.
Qed.

(** X8. Subscribing once for each of a list of capacities that [make]
    grants returns distinct fresh handles in that order and appends them to the
    registry in that order, so that registry order is subscribe order; the
    channel behind the i-th of them is open, empty and of the i-th
    capacity. *)
Theorem X8_subscribe_all_in_order (capacities : list Z) w :
  Forall (fun capacity => 0 <= capacity <= maxChanCap) capacities ->
  exists chs w',
    subscribe_all capacities w = Returned chs w'
    /\ registry w' = registry w ++ chs
    /\ length chs = length capacities
    /\ NoDup chs
    /\ heap w' = heap w ++ ((fun capacity => Hchan capacity [] false)
                              <$> capacities)
    /\ forall i capacity,
         capacities !! i = Some capacity ->
         exists l, chs !! i = Some (Chan l)
           /\ heap w' !! l = Some (Hchan capacity [] false)
           /\ (length (heap w) <= l)%nat.
Proof.
  intros Hcaps. eexists _, _. split; [by apply subscribe_all_spec|].
  split; [|split; [|split; [|split]]].
  - unfold registry. simpl. by rewrite elems_append.
  - by rewrite length_fmap, length_seq.
  - apply NoDup_fmap_2; [|apply NoDup_seq]. by intros ?? [= ->].
  - done.
  - intros i c Hi. exists (length (heap w) + i)%nat.
    assert (Hlt : (i < length capacities)%nat) by by eapply lookup_lt_Some.
    split; [|split; [|lia]].
    + rewrite list_lookup_fmap, lookup_seq_lt by done. done.
    + simpl. rewrite lookup_app_r by lia.
      replace (length (heap w) + i - length (heap w))%nat with i by lia.
      by rewrite list_lookup_fmap, Hi.
Qed.

(** ** Queues stay within their capacity *)

Lemma keeps_ret {A : Type} (P : world event -> Prop) (a : A) :
  keeps P (ret a).
Proof. by intros w Hw. Qed.

Lemma keeps_bind {A B : Type} (P : world event -> Prop)
    (m : M event A) (k : A -> M event B) :
  keeps P m -> (forall a, keeps P (k a)) -> keeps P (bind m k).
Proof.
  intros Hm Hk w Hw. unfold bind. specialize (Hm w Hw).
  destruct (m w) as [a w1|p w1|]; [|done..]. by apply Hk.
Qed.

Lemma bounded_set_chan w l q :
  bounded w -> within_capacity q -> bounded (set_chan l q w).
Proof. intros Hw Hq. by apply Forall_insert. Qed.

Lemma keeps_bounded_makechan capacity : keeps (event:=event) bounded (makechan capacity).
Proof.
  intros w Hw. unfold makechan.
  destruct (Z.ltb_spec capacity 0) as [Hneg|Hpos]; [done|].
  destruct (Z.ltb_spec maxChanCap capacity) as [Hbig|Hfit]; [done|]. simpl.
  apply Forall_app. split; [done|]. apply Forall_singleton.
  unfold within_capacity. simpl. lia.
Qed.

Lemma keeps_bounded_chansend_nb ch e : keeps (event:=event) bounded (chansend_nb ch e).
Proof.
  intros w Hw. unfold chansend_nb. destruct ch as [|l]; [done|].
  destruct (heap w !! l) as [q|] eqn:Hq; [|done].
  destruct (closed q); [done|].
  destruct (Z.ltb_spec (Z.of_nat (length (buf q))) (dataqsiz q)); [|done].
  apply bounded_set_chan; [done|]. unfold within_capacity. simpl.
  rewrite length_app. simpl. lia.
Qed.

Lemma keeps_bounded_closechan ch : keeps (event:=event) bounded (closechan ch).
Proof.
  intros w Hw. unfold closechan. destruct ch as [|l]; [done|].
  destruct (heap w !! l) as [q|] eqn:Hq; [|done].
  destruct (closed q); [done|].
  apply bounded_set_chan; [done|].
  by apply (Forall_lookup_1 _ _ _ _ Hw Hq).
Qed.

Lemma keeps_bounded_chanrecv ch : keeps (event:=event) bounded (chanrecv ch).
Proof.
  intros w Hw. unfold chanrecv. destruct ch as [|l]; [done|].
  destruct (heap w !! l) as [q|] eqn:Hq; [|done].
  pose proof (Forall_lookup_1 _ _ _ _ Hw Hq) as Hwq.
  unfold within_capacity in Hwq.
  destruct (buf q) as [|e b] eqn:Hb.
  - by destruct (closed q).
  - apply bounded_set_chan; [done|]. unfold within_capacity. simpl in *. lia.
Qed.

Lemma keeps_bounded_get_subscribers : keeps (event:=event) bounded get_subscribers.
Proof. by intros w Hw. Qed.

Lemma keeps_bounded_set_subscribers (s : slice) :
  keeps (event:=event) bounded (set_subscribers s).
Proof. by intros w Hw. Qed.

Lemma keeps_bounded_step (o : op event) : keeps (event:=event) bounded (step o).
Proof.
  destruct o as [capacity|e|ch|]; simpl.
  - apply keeps_bind; [|intros; apply keeps_ret].
    unfold Subscribe. apply keeps_bind; [apply keeps_bounded_makechan|].
    intros ch. apply keeps_bind; [apply keeps_bounded_get_subscribers|].
    intros s. apply keeps_bind; [apply keeps_bounded_set_subscribers|].
    intros; apply keeps_ret.
  - unfold Publish. apply keeps_bind; [apply keeps_bounded_get_subscribers|].
    intros s. apply keeps_bind; [|intros; apply keeps_ret].
    induction (elems s) as [|ch rest IH]; [apply keeps_ret|]. simpl.
    apply keeps_bind; [apply keeps_bounded_chansend_nb|]. intros d.
    apply keeps_bind; [apply IH|]. intros; apply keeps_ret.
  - unfold Unsubscribe.
    apply keeps_bind; [apply keeps_bounded_get_subscribers|]. intros s.
    generalize 0%nat. induction (elems s) as [|sub rest IH]; intros i;
      [apply keeps_ret|].
    simpl. case_decide; [|apply IH].
    apply keeps_bind; [apply keeps_bounded_get_subscribers|]. intros s'.
    apply keeps_bind; [apply keeps_bounded_set_subscribers|]. intros _.
    apply keeps_bounded_closechan.
  - unfold Close. apply keeps_bind; [apply keeps_bounded_get_subscribers|].
    intros s. apply keeps_bind; [|intros; apply keeps_bounded_set_subscribers].
    induction (elems s) as [|ch rest IH]; [apply keeps_ret|]. simpl.
    apply keeps_bind; [apply keeps_bounded_closechan|]. intros _. apply IH.
Qed.

Lemma keeps_bounded_run_acts (acts : list (act event)) :
  keeps (event:=event) bounded (run_acts acts).
Proof.
  induction acts as [|a acts IH]; [apply keeps_ret|]. simpl.
  apply keeps_bind; [|intros; apply IH].
  destruct a as [o|ch|ch]; simpl.
  - apply keeps_bounded_step.
  - apply keeps_bind; [apply keeps_bounded_chanrecv|]. intros; apply keeps_ret.
  - apply keeps_bounded_closechan.
Qed.

(** X9. No queue ever holds more than its capacity: if that is so for the
    channels of a world, it is so after any moves of the bus and of the
    consumers from there (method calls, receives, even a consumer closing
    its handle), in the world they return as well as in the world at a
    panic. *)
Theorem X9_queues_within_capacity (acts : list (act event)) w :
  bounded w ->
  match run_acts acts w with
  | Returned _ w' | Panicked _ w' =>
      forall l q, heap w' !! l = Some q ->
        Z.of_nat (length (buf q)) <= dataqsiz q
  | Undefined => True
  end.
Proof.
  intros Hw. pose proof (keeps_bounded_run_acts acts w Hw) as Hk.
  destruct (run_acts acts w) as [[] w'|p w'|]; [| |done];
    intros l q Hq; by apply (Forall_lookup_1 _ _ _ _ Hk Hq).
Qed.

(** ** Consumers that only receive *)

Lemma bus_inv_chanrecv w ch r w' :
  bus_inv w -> chanrecv ch w = Returned r w' ->
  bus_inv w' /\ eb w' = eb w.
Proof.
  intros Hinv Hrecv. unfold chanrecv in Hrecv. destruct ch as [|l].
  { by injection Hrecv as <- <-. }
  destruct (heap w !! l) as [q|] eqn:Hq; [|done].
  destruct (buf q) as [|e b] eqn:Hb.
  { destruct (closed q); by injection Hrecv as <- <-. }
  injection Hrecv as <- <-. split; [|done].
  destruct Hinv as [Hnd Hall]. split; [done|].
  apply Forall_forall. intros ch Hch.
  eapply Forall_forall in Hall; [|done].
  destruct (decide (ch = Chan l)) as [->|Hne].
  - unfold is_open, chan_at in *.
    rewrite (heap_set_chan w l l q Hq), decide_True by done.
    by rewrite Hq in Hall.
  - by rewrite (is_open_set_chan w l q _ ch Hq Hne).
Qed.

(** X10. The registry invariant survives the consumers: from a registry of
    distinct open handles, after any interleaving of bus methods with
    receives on any handles (no consumer closing a handle itself), the
    registry again holds distinct open handles, and the only way a next
    bus method can panic is a Subscribe with a capacity [make] rejects
    (negative, or beyond the platform's limit), which panics with
    "makechan: size out of range" and changes nothing. *)
Theorem X10_invariant_with_receivers (acts : list (act event)) w w' :
  bus_inv w -> Forall no_consumer_close acts ->
  run_acts acts w = Returned tt w' ->
  NoDup (registry w')
  /\ Forall (fun ch => is_open w' ch = true) (registry w')
  /\ forall o p w'', step o w' = Panicked p w'' ->
       p = MakechanSizeOutOfRange /\ w'' = w'
       /\ exists capacity, o = OpSubscribe capacity
            /\ (capacity < 0 \/ maxChanCap < capacity).
Proof.
  intros Hinv Hacts Hrun.
  assert (Hinv' : bus_inv w').
  { revert w Hinv Hrun. induction Hacts as [|a acts Ha _ IH]; intros w Hinv Hrun.
    - by injection Hrun as <-.
    - simpl in Hrun. unfold bind in Hrun.
      destruct (step_act a w) as [[] w1|p w1|] eqn:Hstep; [|done..].
      apply (IH w1); [|done].
      destruct a as [o|ch|ch]; simpl in Hstep.
      + destruct (step_inv w o Hinv) as [(w2 & Hs & Hinv2)|(? & _ & _ & Hp)].
        * rewrite Hs in Hstep. by injection Hstep as <-.
        * by rewrite Hp in Hstep.
      + unfold bind in Hstep.
        destruct (chanrecv ch w) as [r w2|p w2|] eqn:Hrecv; [|done..].
        injection Hstep as <-.
        by destruct (bus_inv_chanrecv w ch r w2 Hinv Hrecv).
      + done. }
  split; [by destruct Hinv'|]. split; [by destruct Hinv'|].
  intros o p w'' Hp.
  destruct (step_inv w' o Hinv') as [(w1 & Hs & _)|(c & Ho & Hc & Hp')].
  - by rewrite Hs in Hp.
  - rewrite Hp' in Hp. injection Hp as <- <-.
    split; [done|]. split; [done|]. by exists c.
Qed.

(** ** What the bus never does to a channel *)

Lemma evolves_refl q : evolves q q.
Proof. by split; [|split]. Qed.

Lemma evolves_trans q1 q2 q3 : evolves q1 q2 -> evolves q2 q3 -> evolves q1 q3.
Proof.
  intros (Hd & Hp & Hc) (Hd' & Hp' & Hc'). split; [congruence|]. split.
  - by etrans.
  - intros Hcl. specialize (Hc Hcl). subst q2. by apply Hc'.
Qed.

Lemma evolves_offer e q : closed q = false -> evolves q (offer e q).
Proof.
  intros Hc. unfold offer. destruct (_ <? _); [|apply evolves_refl].
  split; [done|]. split; [by apply prefix_app_r|congruence].
Qed.

Lemma evolves_shut q : closed q = false -> evolves q (shut q).
Proof. intros Hc. split; [done|]. split; [done|congruence]. Qed.

Lemma registered_open w l q :
  bus_inv w -> Chan l ∈ registry w -> heap w !! l = Some q ->
  closed q = false.
Proof.
  intros [_ Hall] Hin Hq. eapply Forall_forall in Hall; [|done].
  unfold is_open, chan_at in Hall. rewrite Hq in Hall.
  by destruct (closed q).
Qed.

Lemma step_evolves w o w' l q :
  bus_inv w -> step o w = Returned tt w' -> heap w !! l = Some q ->
  exists q', heap w' !! l = Some q' /\ evolves q q'.
Proof.
  intros Hinv Hstep Hq.
  destruct o as [capacity|e|ch|]; simpl in Hstep.
  - unfold bind in Hstep.
    destruct (capacity_cases capacity) as [Hpos|Hneg];
      [|by rewrite Subscribe_rejected in Hstep].
    rewrite Subscribe_ok in Hstep by done. injection Hstep as <-.
    exists q. split; [|apply evolves_refl]. simpl.
    by apply lookup_app_l_Some.
  - destruct (Publish_spec w e Hinv) as (w1 & Hrun & _ & _ & Hheap).
    rewrite Hrun in Hstep. injection Hstep as <-.
    rewrite Hheap, Hq. case_decide as Hin.
    + exists (offer e q). split; [done|].
      apply evolves_offer. by eapply registered_open.
    + exists q. split; [done|apply evolves_refl].
  - destruct (decide (ch ∈ registry w)) as [Hin|Hnin].
    + assert (Hop : is_open w ch = true).
      { destruct Hinv as [_ Hall]. by eapply Forall_forall in Hall. }
      destruct (is_open_lookup _ _ Hop) as (l0 & q0' & -> & _).
      destruct (Unsubscribe_spec w l0 Hinv Hin)
        as (pre & post & q0 & _ & _ & Hq0 & Hc0 & Hrun).
      rewrite Hrun in Hstep. injection Hstep as <-. simpl.
      destruct (decide (l = l0)) as [->|Hne].
      * rewrite Hq in Hq0. injection Hq0 as <-.
        exists (shut q). split; [|by apply evolves_shut].
        apply list_lookup_insert_eq. by eapply lookup_lt_Some.
      * exists q. split; [|apply evolves_refl].
        by rewrite list_lookup_insert_ne.
    + rewrite Unsubscribe_notin in Hstep by done. injection Hstep as <-.
      exists q. split; [done|apply evolves_refl].
  - destruct (Close_spec w Hinv) as (w1 & Hrun & _ & Hheap).
    rewrite Hrun in Hstep. injection Hstep as <-.
    rewrite Hheap, Hq. case_decide as Hin.
    + exists (shut q). split; [done|].
      apply evolves_shut. by eapply registered_open.
    + exists q. split; [done|apply evolves_refl].
Qed.

(** X11. Whatever the bus is asked to do, a channel object keeps its
    capacity, and what is buffered in it stays at the front of its queue
    in the same order: the bus only ever appends, it never removes,
    replaces or reorders a pending event.  A channel that is closed is
    left exactly as it is: never reopened, never sent to. *)
Theorem X11_bus_only_appends (ops : list (op event)) w w' l q :
  bus_inv w -> run_ops ops w = Returned tt w' -> heap w !! l = Some q ->
  exists q',
    heap w' !! l = Some q'
    /\ dataqsiz q' = dataqsiz q
    /\ buf q `prefix_of` buf q'
    /\ (closed q = true -> q' = q).
Proof.
  intros Hinv Hrun Hq.
  enough (exists q', heap w' !! l = Some q' /\ evolves q q')
    as (q' & Hq' & Hd & Hp & Hc) by by exists q'.
  revert w q Hinv Hrun Hq. induction ops as [|o ops IH]; intros w q Hinv Hrun Hq.
  - injection Hrun as <-. exists q. split; [done|apply evolves_refl].
  - simpl in Hrun. unfold bind in Hrun.
    destruct (step_inv w o Hinv) as [(w1 & Hs & Hinv1)|(? & _ & _ & Hp)];
      [|by rewrite Hp in Hrun].
    rewrite Hs in Hrun.
    destruct (step_evolves w o w1 l q Hinv Hs Hq) as (q1 & Hq1 & Hev1).
    destruct (IH w1 q1 Hinv1 Hrun Hq1) as (q' & Hq' & Hev').
    exists q'. split; [done|]. by eapply evolves_trans.
Qed.

(** X12. The bus touches no channel it did not make: after any sequence
    of methods on a fresh bus, every channel that existed when the bus was
    made is unchanged and is not in the registry. *)
Theorem X12_foreign_channels_untouched (h0 : list (hchan event)) ops w l :
  run_ops ops (New h0) = Returned tt w -> (l < length h0)%nat ->
  heap w !! l = h0 !! l /\ Chan l ∉ registry w.
Proof.
  intros Hrun Hl.
  apply (run_ops_detached ops (New h0) w l); [apply bus_inv_New|done| |done].
  apply not_elem_of_nil.
Qed.

(** ** How the methods compose *)

(** X13. Publish and Unsubscribe of a registered handle [h] can be
    swapped as far as everybody else is concerned: both orders return, with
    the same registry and the same state of every channel but that of
    [h].  For [h] the order decides whether its queue took the event (if
    it had room) before it was closed. *)
Theorem X13_publish_unsubscribe_swap w e l :
  bus_inv w -> Chan l ∈ registry w ->
  exists wa wb q,
    run_ops [OpPublish e; OpUnsubscribe (Chan l)] w = Returned tt wa
    /\ run_ops [OpUnsubscribe (Chan l); OpPublish e] w = Returned tt wb
    /\ eb wa = eb wb
    /\ (forall l', l' <> l -> heap wa !! l' = heap wb !! l')
    /\ heap w !! l = Some q
    /\ heap wa !! l = Some (shut (offer e q))
    /\ heap wb !! l = Some (shut q).
Proof.
  intros Hinv Hin.
  destruct (Unsubscribe_spec w l Hinv Hin)
    as (pre & post & q & Hreg & Hout & Hq & Hc & Hunsb).
  set (wb1 := World (<[l:=shut q]> (heap w)) (EventBus (Some (pre ++ post))))
    in *.
  pose proof (bus_inv_Unsubscribe w (Chan l) wb1 Hinv Hunsb) as Hinvb1.
  destruct (Publish_spec wb1 e Hinvb1) as (wb & Hpubb & _ & Hebb & Hheapb).
  destruct (Publish_spec w e Hinv) as (w1 & Hpuba & _ & Heba & Hheapa).
  assert (Hq1 : heap w1 !! l = Some (offer e q)).
  { by rewrite Hheapa, decide_True, Hq. }
  assert (Hc1 : closed (offer e q) = false).
  { unfold offer. by destruct (_ <? _). }
  assert (Hreg1 : registry w1 = pre ++ Chan l :: post).
  { unfold registry. rewrite Heba. done. }
  assert (Hlpre : Chan l ∉ pre).
  { intros Hin'. apply Hout, elem_of_app. by left. }
  set (wa := World (<[l:=shut (offer e q)]> (heap w1))
                   (EventBus (Some (pre ++ post)))).
  assert (Hunsa : Unsubscribe (Chan l) w1 = Returned tt wa).
  { rewrite (Unsubscribe_found w1 (Chan l) pre post Hreg1 Hlpre).
    by rewrite (closechan_open
                  (World (heap w1) (EventBus (Some (pre ++ post)))) l _
                  Hq1 Hc1). }
  assert (Hl : (l < length (heap w))%nat) by (by eapply lookup_lt_Some).
  assert (Hl1 : (l < length (heap w1))%nat) by (by eapply lookup_lt_Some).
  exists wa, wb, q. split; [|split; [|split; [|split; [|split; [|split]]]]].
  - simpl. unfold bind. by rewrite Hpuba, Hunsa.
  - simpl. unfold bind. by rewrite Hunsb, Hpubb.
  - by rewrite Hebb.
  - intros l' Hne. unfold wa. simpl.
    rewrite list_lookup_insert_ne by done. rewrite Hheapa, Hheapb.
    assert (Hsame : heap wb1 !! l' = heap w !! l').
    { unfold wb1. simpl. by rewrite list_lookup_insert_ne. }
    rewrite Hsame.
    assert (Hiff : Chan l' ∈ registry w <-> Chan l' ∈ registry wb1).
    { rewrite Hreg. unfold registry, wb1. simpl.
      rewrite !elem_of_app, elem_of_cons. split; [|tauto].
      intros [?|[?|?]]; [tauto|congruence|tauto]. }
    destruct (decide (Chan l' ∈ registry w)),
             (decide (Chan l' ∈ registry wb1)); tauto.
  - done.
  - unfold wa. simpl. by apply list_lookup_insert_eq.
  - rewrite Hheapb. unfold registry, wb1. simpl.
    rewrite decide_False by done. by apply list_lookup_insert_eq.
Qed.

(** X14. A drop is for one event, not for good: when the queue of a
    registered subscription is full, a Publish leaves it as it is, but
    after one receive by its consumer the next Publish is enqueued behind
    what is still pending. *)
Theorem X14_receive_frees_a_slot w l q e0 (b : list event) e :
  bus_inv w -> Chan l ∈ registry w -> heap w !! l = Some q ->
  buf q = e0 :: b -> Z.of_nat (length (buf q)) = dataqsiz q ->
  (exists wd, Publish e w = Returned tt wd /\ heap wd !! l = Some q)
  /\ exists w1 w2,
       chanrecv (Chan l) w = Returned (RecvValue e0) w1
       /\ Publish e w1 = Returned tt w2
       /\ heap w2 !! l = Some (Hchan (dataqsiz q) (b ++ [e]) false).
Proof.
  intros Hinv Hin Hq Hb Hfull.
  pose proof (registered_open w l q Hinv Hin Hq) as Hc. split.
  - destruct (Publish_spec w e Hinv) as (wd & Hpub & _ & _ & Hheap).
    exists wd. split; [done|]. rewrite Hheap, decide_True, Hq by done.
    simpl. f_equal. unfold offer.
    destruct (Z.ltb_spec (Z.of_nat (length (buf q))) (dataqsiz q)); [lia|done].
  - set (w1 := set_chan l (Hchan (dataqsiz q) b (closed q)) w).
    assert (Hrecv : chanrecv (Chan l) w = Returned (RecvValue e0) w1).
    { unfold chanrecv. by rewrite Hq, Hb. }
    destruct (bus_inv_chanrecv w (Chan l) _ w1 Hinv Hrecv) as [Hinv1 Heb1].
    destruct (Publish_spec w1 e Hinv1) as (w2 & Hpub & _ & _ & Hheap).
    exists w1, w2. split; [done|]. split; [done|].
    rewrite Hheap. unfold registry. rewrite Heb1. fold (registry w).
    rewrite decide_True by done. unfold w1.
    rewrite (heap_set_chan w l l q Hq), decide_True by done. simpl.
    f_equal. unfold offer. simpl. rewrite Hb in Hfull. simpl in Hfull.
    destruct (Z.ltb_spec (Z.of_nat (length b)) (dataqsiz q)); [|lia].
    by rewrite Hc.
Qed.

End Further.

(** ** Instances of the further properties on concrete worlds *)

Lemma X1_publish_all_independent_witness :
  bus_inv demo_world /\
  exists w',
    run_ops (OpPublish <$> abc) demo_world = Returned tt w'
    /\ registry w' = registry demo_world
    /\ (forall l q, Chan l ∈ registry demo_world ->
          heap demo_world !! l = Some q ->
          heap w' !! l =
            Some (Hchan (dataqsiz q)
                    (buf q ++ take (Z.to_nat (dataqsiz q) - length (buf q)) abc)
                    false))
    /\ (forall l, Chan l ∉ registry demo_world ->
          heap w' !! l = heap demo_world !! l).
Proof.
  split; [compute_done|].
  apply (X1_publish_all_independent demo_world abc). compute_done.
Defined.

Lemma X2_receive_in_publish_order_witness :
  bus_inv demo_world /\ Chan 0 ∈ registry demo_world /\
  heap demo_world !! 0%nat = Some (Hchan 2 ["a"%string] false) /\
  run_ops (OpPublish <$> ["b"; "c"]%string) demo_world =
    Returned tt
      (World [Hchan 2 ["a"; "b"]%string false; Hchan 1 ["b"%string] false;
              Hchan 0 [] true] (EventBus (Some [Chan 0; Chan 1]))) /\
  exists w'',
    recv_n 3 (Chan 0)
      (World [Hchan 2 ["a"; "b"]%string false; Hchan 1 ["b"%string] false;
              Hchan 0 [] true] (EventBus (Some [Chan 0; Chan 1]))) =
      Returned [RecvValue "a"; RecvValue "b"; RecvWouldBlock]%string w''
    /\ chanrecv (Chan 0) w'' = Returned RecvWouldBlock w''
    /\ registry w'' = registry demo_world.
Proof.
  split; [compute_done|]. split; [compute_done|]. split; [reflexivity|].
  split; [reflexivity|].
  apply (X2_receive_in_publish_order demo_world ["b"; "c"]%string 0
           (Hchan 2 ["a"%string] false));
    [compute_done|compute_done|reflexivity|reflexivity].
Defined.

Lemma X3_publish_after_consumer_close_witness :
  bus_inv demo_world /\ registry demo_world = [Chan 0] ++ Chan 1 :: [] /\
  closechan (Chan 1) demo_world = Returned tt misused_world /\
  exists w',
    Publish "x"%string misused_world = Panicked SendOnClosedChannel w'
    /\ registry w' = registry demo_world
    /\ (forall l', Chan l' ∈ [Chan 0] ->
          heap w' !! l' = offer "x"%string <$> heap demo_world !! l')
    /\ (forall l', Chan l' ∉ [Chan 0] ->
          heap w' !! l' = heap misused_world !! l').
Proof.
  split; [compute_done|]. split; [reflexivity|]. split; [reflexivity|].
  apply (X3_publish_after_consumer_close demo_world [Chan 0] 1 []
           misused_world "x"%string); [compute_done|reflexivity|reflexivity].
Defined.

Lemma X4_close_after_consumer_close_witness :
  bus_inv demo_world /\ registry demo_world = [Chan 0] ++ Chan 1 :: [] /\
  closechan (Chan 1) demo_world = Returned tt misused_world /\
  exists w',
    Close misused_world = Panicked CloseOfClosedChannel w'
    /\ subscribers (eb w') = subscribers (eb demo_world)
    /\ (forall l', Chan l' ∈ [Chan 0] ->
          heap w' !! l' = shut <$> heap demo_world !! l')
    /\ (forall ch, ch ∈ [] -> is_open w' ch = true)
    /\ Close w' = Panicked CloseOfClosedChannel w'.
Proof.
  split; [compute_done|]. split; [reflexivity|]. split; [reflexivity|].
  apply (X4_close_after_consumer_close demo_world [Chan 0] 1 []
           misused_world); [compute_done|reflexivity|reflexivity].
Defined.

Lemma X5_unsubscribe_after_consumer_close_witness :
  bus_inv demo_world /\ registry demo_world = [Chan 0] ++ Chan 1 :: [] /\
  closechan (Chan 1) demo_world = Returned tt misused_world /\
  exists w',
    Unsubscribe (Chan 1) misused_world = Panicked CloseOfClosedChannel w'
    /\ heap w' = heap misused_world
    /\ registry w' = [Chan 0] ++ []
    /\ bus_inv w'.
Proof.
  split; [compute_done|]. split; [reflexivity|]. split; [reflexivity|].
  apply (X5_unsubscribe_after_consumer_close demo_world [Chan 0] 1 []
           misused_world); [compute_done|reflexivity|reflexivity].
Defined.

Lemma X6_unsubscribe_again_noop_witness :
  bus_inv full_world /\ Chan 0 ∈ registry full_world /\
  Unsubscribe (Chan 0) full_world =
    Returned tt (World [Hchan 2 ["a"; "b"]%string true] (EventBus (Some []))) /\
  (Unsubscribe (Chan 0)
     (World [Hchan 2 ["a"; "b"]%string true] (EventBus (Some []))) =
     Returned tt (World [Hchan 2 ["a"; "b"]%string true] (EventBus (Some [])))
   /\ forall ops w'',
        run_ops ops
          (World [Hchan 2 ["a"; "b"]%string true] (EventBus (Some []))) =
          Returned tt w'' ->
        Unsubscribe (Chan 0) w'' = Returned tt w'').
Proof.
  split; [compute_done|]. split; [compute_done|]. split; [reflexivity|].
  apply (X6_unsubscribe_again_noop full_world 0);
    [compute_done|compute_done|reflexivity].
Defined.

Lemma X7_subscribe_unsubscribe_round_trip_witness :
  bus_inv demo_closed /\ 0 <= 3 <= maxChanCap /\
  exists ch w1 w2,
    Subscribe 3 demo_closed = Returned ch w1
    /\ Unsubscribe ch w1 = Returned tt w2
    /\ subscribers (eb w2) = Some (registry demo_closed)
    /\ heap w2 = heap demo_closed ++ [Hchan 3 [] true]
    /\ bus_inv w2.
Proof.
  split; [compute_done|]. split; [by vm_compute|].
  apply (X7_subscribe_unsubscribe_round_trip demo_closed 3);
    [compute_done|by vm_compute].
Defined.

Lemma X8_subscribe_all_in_order_witness :
  Forall (fun capacity => 0 <= capacity <= maxChanCap) [2; 0; 5] /\
  exists chs w',
    subscribe_all [2; 0; 5] demo_world = Returned chs w'
    /\ registry w' = registry demo_world ++ chs
    /\ length chs = length [2; 0; 5]
    /\ NoDup chs
    /\ heap w' = heap demo_world
                   ++ ((fun capacity => Hchan capacity [] false) <$> [2; 0; 5])
    /\ forall i capacity,
         [2; 0; 5] !! i = Some capacity ->
         exists l, chs !! i = Some (Chan l)
           /\ heap w' !! l = Some (Hchan capacity [] false)
           /\ (length (heap demo_world) <= l)%nat.
Proof.
  split; [repeat constructor; by vm_compute|].
  apply (X8_subscribe_all_in_order [2; 0; 5] demo_world).
  repeat constructor; by vm_compute.
Defined.

Lemma X9_queues_within_capacity_witness :
  bounded misused_world /\
  match run_acts [ActBus (OpPublish "x"%string)] misused_world with
  | Returned _ w' | Panicked _ w' =>
      forall l q, heap w' !! l = Some q ->
        Z.of_nat (length (buf q)) <= dataqsiz q
  | Undefined => True
  end.
Proof.
  split; [repeat constructor; unfold within_capacity; simpl; lia|].
  apply (X9_queues_within_capacity [ActBus (OpPublish "x"%string)]
           misused_world).
  repeat constructor; unfold within_capacity; simpl; lia.
Defined.

Lemma X10_invariant_with_receivers_witness :
  bus_inv (New (event:=string) []) /\ Forall no_consumer_close demo_acts /\
  run_acts demo_acts (New []) = Returned tt demo_world /\
  (NoDup (registry demo_world)
   /\ Forall (fun ch => is_open demo_world ch = true) (registry demo_world)
   /\ forall o p w'', step o demo_world = Panicked p w'' ->
        p = MakechanSizeOutOfRange /\ w'' = demo_world
        /\ exists capacity, o = OpSubscribe capacity
             /\ (capacity < 0 \/ maxChanCap < capacity)).
Proof.
  split; [compute_done|]. split; [repeat constructor|]. split; [reflexivity|].
  apply (X10_invariant_with_receivers demo_acts (New []) demo_world);
    [compute_done|repeat constructor|reflexivity].
Defined.

Lemma X11_bus_only_appends_witness :
  bus_inv demo_world /\
  run_ops [OpPublish "b"%string; OpClose] demo_world =
    Returned tt
      (World [Hchan 2 ["a"; "b"]%string true; Hchan 1 ["b"%string] true;
              Hchan 0 [] true] (EventBus None)) /\
  heap demo_world !! 0%nat = Some (Hchan 2 ["a"%string] false) /\
  exists q',
    heap (World [Hchan 2 ["a"; "b"]%string true; Hchan 1 ["b"%string] true;
                 Hchan 0 [] true] (EventBus None)) !! 0%nat = Some q'
    /\ dataqsiz q' = dataqsiz (Hchan 2 ["a"%string] false)
    /\ buf (Hchan 2 ["a"%string] false) `prefix_of` buf q'
    /\ (closed (Hchan 2 ["a"%string] false) = true ->
        q' = Hchan 2 ["a"%string] false).
Proof.
  split; [compute_done|]. split; [reflexivity|]. split; [reflexivity|].
  apply (X11_bus_only_appends [OpPublish "b"%string; OpClose] demo_world);
    [compute_done|reflexivity|reflexivity].
Defined.

Lemma X12_foreign_channels_untouched_witness :
  run_ops [OpSubscribe 1; OpPublish "a"%string; OpClose]
    (New [Hchan 1 [] false]) =
    Returned tt
      (World [Hchan 1 [] false; Hchan 1 ["a"%string] true] (EventBus None)) /\
  (0 < length [Hchan (event:=string) 1 [] false])%nat /\
  (heap (World [Hchan 1 [] false; Hchan 1 ["a"%string] true] (EventBus None))
     !! 0%nat = [Hchan 1 [] false] !! 0%nat
   /\ Chan 0 ∉ registry
        (World [Hchan 1 [] false; Hchan 1 ["a"%string] true] (EventBus None))).
Proof.
  split; [reflexivity|]. split; [simpl; lia|].
  apply (X12_foreign_channels_untouched [Hchan 1 [] false]
           [OpSubscribe 1; OpPublish "a"%string; OpClose]);
    [reflexivity|simpl; lia].
Defined.

Lemma X13_publish_unsubscribe_swap_witness :
  bus_inv demo_world /\ Chan 0 ∈ registry demo_world /\
  exists wa wb q,
    run_ops [OpPublish "x"%string; OpUnsubscribe (Chan 0)] demo_world =
      Returned tt wa
    /\ run_ops [OpUnsubscribe (Chan 0); OpPublish "x"%string] demo_world =
         Returned tt wb
    /\ eb wa = eb wb
    /\ (forall l', l' <> 0%nat -> heap wa !! l' = heap wb !! l')
    /\ heap demo_world !! 0%nat = Some q
    /\ heap wa !! 0%nat = Some (shut (offer "x"%string q))
    /\ heap wb !! 0%nat = Some (shut q).
Proof.
  split; [compute_done|]. split; [compute_done|].
  apply (X13_publish_unsubscribe_swap demo_world "x"%string 0); compute_done.
Defined.

Lemma X14_receive_frees_a_slot_witness :
  bus_inv full_world /\ Chan 0 ∈ registry full_world /\
  heap full_world !! 0%nat = Some (Hchan 2 ["a"; "b"]%string false) /\
  buf (Hchan 2 ["a"; "b"]%string false) = "a"%string :: ["b"%string] /\
  Z.of_nat (length (buf (Hchan 2 ["a"; "b"]%string false))) =
    dataqsiz (Hchan 2 ["a"; "b"]%string false) /\
  ((exists wd, Publish "c"%string full_world = Returned tt wd
      /\ heap wd !! 0%nat = Some (Hchan 2 ["a"; "b"]%string false))
   /\ exists w1 w2,
        chanrecv (Chan 0) full_world = Returned (RecvValue "a"%string) w1
        /\ Publish "c"%string w1 = Returned tt w2
        /\ heap w2 !! 0%nat =
             Some (Hchan (dataqsiz (Hchan 2 ["a"; "b"]%string false))
                     (["b"%string] ++ ["c"%string]) false)).
Proof.
  split; [compute_done|]. split; [compute_done|]. split; [reflexivity|].
  split; [reflexivity|]. split; [reflexivity|].
  apply (X14_receive_frees_a_slot full_world 0
           (Hchan 2 ["a"; "b"]%string false) "a"%string ["b"%string]
           "c"%string);
    [compute_done|compute_done|reflexivity|reflexivity|reflexivity].
Defined.
